(** * Adaptive mesh refinement for the Poisson problem

    A shallow embedding of the SOLVE - ESTIMATE - MARK - REFINE notebook
    (residual form, ranking, marking, edge collection, the [while] loop and
    [solve_poisson_homog_dirichlet]) together with the properties stated
    about it.

    Conventions.
    - Field values (coordinates, indicators, residuals) are real numbers:
      the development follows the formulas of the forms, not the rounding
      of the assembled floating-point sums.  The one place where the binary
      representation decides an integer result, [int(np.ceil(0.05*num_cells))],
      is modelled bit-exactly in [Module Binary64].
    - Integrals are what the assembler computes: weighted sums over the
      quadrature rule attached to each cell ([dx]) and interior facet ([dS]).
    - The finite-element library (refinement, differentiation of a discrete
      function, assembly of the Poisson system, LU solve) is the interface
      [FEMLibrary]; plotting and file output have no effect on the loop and
      are left out. *)

From Stdlib Require Import Reals Lra ZArith Lia List Bool Arith Permutation Sorted.
Import ListNotations.

(* ================================================================== *)
(** * Part I: definitions *)
(* ================================================================== *)

(** ** IEEE binary64 arithmetic needed by [0.05*num_cells] *)

Module Binary64.
Open Scope Z_scope.

(** The literal [0.05] is the double [0x1.999999999999ap-5], that is
    [c005 * 2^-56]. *)
Definition c005 : Z := 3602879701896397.

(** Round to nearest, ties to even, at 53 significant bits.  The argument and
    the result are positive integers read at a common binary scale; no
    overflow or underflow occurs in the range used here. *)
Definition rne (p : Z) : Z :=
  let s := Z.log2 p - 52 in
  if s <=? 0 then p
  else
    let q := Z.shiftr p s in
    let r := p mod 2 ^ s in
    let half := 2 ^ (s - 1) in
    if r <? half then q * 2 ^ s
    else if half <? r then (q + 1) * 2 ^ s
    else if Z.even q then q * 2 ^ s else (q + 1) * 2 ^ s.

(** Conversion of a Python int to float. *)
Definition float_of_int (n : Z) : Z := rne n.

(** [0.05 * n] as a double, in units of [2^-56]. *)
Definition fl_mul_005 (n : Z) : Z := rne (c005 * float_of_int n).

(** [np.ceil] of a double given in units of [2^-56]. *)
Definition ceil56 (p : Z) : Z := (p + 2 ^ 56 - 1) / 2 ^ 56.

End Binary64.

(** [num_cells_to_refine = int(np.ceil(0.05*num_cells))] *)
Definition num_cells_to_refine (num_cells : nat) : nat :=
  Z.to_nat (Binary64.ceil56 (Binary64.fl_mul_005 (Z.of_nat num_cells))).

(** ** Python built-ins: [enumerate], [sorted], slices *)

Section PyBuiltins.
Context {A K : Type}.
Variable lt : K -> K -> bool.   (* [<] on keys, the only comparison [sorted] uses *)
Variable key : A -> K.

(** Insertion of [x] to the right of every element not greater than it. *)
Fixpoint insort_right (x : A) (l : list A) : list A :=
  match l with
  | [] => [x]
  | y :: l' => if lt (key x) (key y) then x :: y :: l'
               else y :: insort_right x l'
  end.

(** The stable ascending sort: elements are taken left to right and
    inserted into the sorted prefix. *)
Definition stable_sort (l : list A) : list A :=
  fold_left (fun acc x => insort_right x acc) l [].

(** [sorted(l, key=key, reverse=reverse)]: with [reverse] the list is
    reversed, sorted ascending and reversed again, which keeps equal keys
    in their original order. *)
Definition sorted (reverse : bool) (l : list A) : list A :=
  if reverse then rev (stable_sort (rev l)) else stable_sort l.
End PyBuiltins.

Definition enumerate {A : Type} (l : list A) : list (nat * A) :=
  combine (seq 0 (length l)) l.

(** [cell_ord_by_res = [idx for idx, value in
      sorted(enumerate(array_cell_res), key=lambda x: x[-1], reverse=True)]] *)
Definition cell_ord_by_res_gen {K : Type} (lt : K -> K -> bool)
    (array_cell_res : list K) : list nat :=
  map fst (sorted lt (@snd nat K) true (enumerate array_cell_res)).

(** ** Real-number helpers *)

Open Scope R_scope.

Definition Rltb (x y : R) : bool := if Rlt_dec x y then true else false.
Definition Rleb (x y : R) : bool := if Rle_dec x y then true else false.

(** [np.sum] *)
Definition np_sum (l : list R) : R := fold_right Rplus 0 l.

Definition cell_ord_by_res (array_cell_res : list R) : list nat :=
  cell_ord_by_res_gen Rltb array_cell_res.

(** ** Mesh, measures and discrete functions *)

Definition point : Type := R * R.

Definition dot (a b : point) : R := fst a * fst b + snd a * snd b.

(** A quadrature rule: weights and points. *)
Definition rule : Type := list (R * point).

(** A triangle: its three edges (the row of the cell-to-edge connectivity)
    and the rule of the cell measure [dx] on it. *)
Record Cell : Type := {
  cell_edges : nat * nat * nat;
  cell_dx : rule
}.

(** An interior facet: the cells on its two sides, their outward normals
    and the rule of the interior-facet measure [dS] on it. *)
Record InteriorFacet : Type := {
  facet_plus : nat;
  facet_minus : nat;
  normal_plus : point;
  normal_minus : point;
  facet_dS : rule
}.

Record Mesh : Type := {
  cells : list Cell;
  interior_facets : list InteriorFacet;
  geometry_x : list point;            (* vertex coordinates; one P1 dof per vertex *)
  boundary_facets : list (nat * nat)  (* exterior facets, by their two vertices *)
}.

(** [msh.topology.index_map(tdim).size_local] *)
Definition num_cells (msh : Mesh) : nat := length (cells msh).

(** [c_to_e.links(cell)] *)
Definition c_to_e_links (msh : Mesh) (cell : nat) : list nat :=
  match nth_error (cells msh) cell with
  | Some c => let '(e0, e1, e2) := cell_edges c in [e0; e1; e2]
  | None => []
  end.

(** A finite-element function: its mesh and its vector of dof values. *)
Record Function : Type := {
  function_mesh : Mesh;
  x_array : list R
}.

(** The services of the finite-element library the notebook calls. *)
Class FEMLibrary : Type := {
  (** [mesh.refine(msh, edges)[0]] *)
  refine : Mesh -> list nat -> Mesh;
  (** [grad(uh)] on a cell, at a point *)
  grad : Function -> nat -> point -> point;
  (** [div(grad(uh))] on a cell, at a point *)
  div_grad : Function -> nat -> point -> R;
  (** the matrix of [a = inner(grad(u), grad(v)) * dx], before boundary conditions *)
  assemble_matrix : Mesh -> nat -> nat -> R;
  (** the vector of [L = inner(f, v) * dx], before boundary conditions *)
  assemble_rhs : Mesh -> (point -> R) -> nat -> R;
  (** the direct solve ([ksp_type = preonly], [pc_type = lu]) of a system of given size *)
  lu_solve : nat -> (nat -> nat -> R) -> (nat -> R) -> list R
}.

(** *** Forms over the piecewise-constant space and their assembly *)

(** Integration against a rule. *)
Definition integrate (q : rule) (g : point -> R) : R :=
  fold_right (fun wx acc => fst wx * g (snd wx) + acc) 0 q.

(** A piecewise-constant quantity: one value per cell. *)
Definition DG0 : Type := nat -> R.

(** The basis function of ["DG", 0] attached to cell [T]. *)
Definition dg0_basis (T : nat) : DG0 := fun K => if Nat.eqb K T then 1 else 0.

(** [avg(v)] on an interior facet. *)
Definition avg (v : DG0) (E : InteriorFacet) : R :=
  (v (facet_plus E) + v (facet_minus E)) / 2.

(** [jump(v, n)] of a vector quantity on an interior facet. *)
Definition jump (v : nat -> point -> point) (E : InteriorFacet) (x : point) : R :=
  dot (v (facet_plus E) x) (normal_plus E) + dot (v (facet_minus E) x) (normal_minus E).

(** A linear form in the test function [w]: a cell integrand for [dx] and
    an interior-facet integrand for [dS]. *)
Record Form : Type := {
  form_dx : DG0 -> nat -> point -> R;
  form_dS : DG0 -> InteriorFacet -> point -> R
}.

(** One entry of [fem.assemble_vector(form)]: the form at the basis function
    of cell [T]. *)
Definition assemble_entry (msh : Mesh) (F : Form) (T : nat) : R :=
  np_sum (map (fun Kc => integrate (cell_dx (snd Kc)) (form_dx F (dg0_basis T) (fst Kc)))
              (enumerate (cells msh)))
  + np_sum (map (fun E => integrate (facet_dS E) (form_dS F (dg0_basis T) E))
                (interior_facets msh)).

(** [fem.assemble_vector(form).array] *)
Definition assemble_vector (msh : Mesh) (F : Form) : list R :=
  map (assemble_entry msh F) (seq 0 (num_cells msh)).

(** [cell_area_form = fem.form(w*dx)] *)
Definition cell_area_form : Form :=
  {| form_dx := fun w K _ => w K; form_dS := fun _ _ _ => 0 |}.

(** [cell_area = fem.function.Function(DG, fem.assemble_vector(cell_area_form))] *)
Definition cell_area (msh : Mesh) : DG0 :=
  fun K => nth K (assemble_vector msh cell_area_form) 0.

Section Estimator.
Context {lib : FEMLibrary}.

(** The residual form of the adaptive loop:
    [2*cell_area*w*(div(grad(uh))+f)**2*dx
     + np.sqrt(2)*avg(cell_area**(1./2))*avg(w)*jump(grad(uh),n)**2*dS] *)
Definition residual (msh : Mesh) (uh : Function) (f : point -> R) : Form :=
  {| form_dx := fun w K x =>
       2 * cell_area msh K * w K * (div_grad uh K x + f x) ^ 2;
     form_dS := fun w E x =>
       sqrt 2 * avg (fun K => sqrt (cell_area msh K)) E * avg w E
       * (jump (grad uh) E x) ^ 2 |}.

(** The residual form of the stand-alone first pass, which writes [-f]:
    [2*cell_area*w*(div(grad(uh))-f)**2*dx + ...] *)
Definition residual_first_pass (msh : Mesh) (uh : Function) (f : point -> R) : Form :=
  {| form_dx := fun w K x =>
       2 * cell_area msh K * w K * (div_grad uh K x - f x) ^ 2;
     form_dS := form_dS (residual msh uh f) |}.

(** [array_cell_res = fem.assemble_vector(residual).array] *)
Definition array_cell_res (msh : Mesh) (uh : Function) (f : point -> R) : list R :=
  assemble_vector msh (residual msh uh f).
End Estimator.

(** ** Marking and edge collection *)

(** [marked_cells = cell_ord_by_res[0:num_cells_to_refine]] *)
Definition marked_cells (num_cells : nat) (array_cell_res : list R) : list nat :=
  firstn (num_cells_to_refine num_cells) (cell_ord_by_res array_cell_res).

(** [edges=[]; for cell in marked_cells: for e in c_to_e.links(cell): edges.append(e)] *)
Definition collect_edges (msh : Mesh) (marked : list nat) : list nat :=
  fold_left
    (fun edges cell => fold_left (fun edges e => edges ++ [e]) (c_to_e_links msh cell) edges)
    marked [].

(** ** The Poisson solve *)

(** [np.isclose(a, b)] with the default tolerances. *)
Definition rtol : R := 1 / 100000.
Definition atol : R := 1 / 100000000.
Definition isclose (a b : R) : bool := Rleb (Rabs (a - b)) (atol + rtol * Rabs b).

(** [bc_marker = lambda x: np.isclose(x[0], 0.0) | np.isclose(x[0], 2.0)
                        | np.isclose(x[1], 0.0) | np.isclose(x[1], 1.0)] *)
Definition bc_marker (x : point) : bool :=
  isclose (fst x) 0 || isclose (fst x) 2 || isclose (snd x) 0 || isclose (snd x) 1.

Definition vertex (msh : Mesh) (v : nat) : point := nth v (geometry_x msh) (0, 0).

(** [mesh.locate_entities_boundary(msh, dim=tdim-1, marker)]: the exterior
    facets all of whose vertices satisfy the marker. *)
Definition locate_entities_boundary (msh : Mesh) (marker : point -> bool) : list (nat * nat) :=
  filter (fun fa => marker (vertex msh (fst fa)) && marker (vertex msh (snd fa)))
         (boundary_facets msh).

(** [fem.locate_dofs_topological(V, 1, facets)] for degree-1 Lagrange: the
    vertices of the given facets, each once. *)
Definition locate_dofs_topological (facets : list (nat * nat)) : list nat :=
  nodup Nat.eq_dec (flat_map (fun fa => [fst fa; snd fa]) facets).

(** [fem.dirichletbc(value, dofs, V)] *)
Record DirichletBC : Type := {
  bc_value : R;
  bc_dofs : list nat
}.

Definition is_bc_dof (bc : DirichletBC) (i : nat) : bool :=
  existsb (Nat.eqb i) (bc_dofs bc).

(** The matrix of the problem with the boundary condition applied: rows and
    columns of constrained dofs are replaced by those of the identity. *)
Definition bc_matrix (bc : DirichletBC) (A : nat -> nat -> R) : nat -> nat -> R :=
  fun i j =>
    if is_bc_dof bc i || is_bc_dof bc j
    then (if Nat.eqb i j then 1 else 0)
    else A i j.

(** The right-hand side with the boundary condition applied: lifting of the
    constrained columns, then the prescribed value on constrained rows. *)
Definition bc_rhs (bc : DirichletBC) (A : nat -> nat -> R) (b : nat -> R) : nat -> R :=
  fun i =>
    if is_bc_dof bc i then bc_value bc
    else b i - np_sum (map (fun j => A i j * bc_value bc) (bc_dofs bc)).

(** Matrix-vector product of a system of size [n]. *)
Definition mat_vec (n : nat) (A : nat -> nat -> R) (u : list R) : nat -> R :=
  fun i => np_sum (map (fun j => A i j * nth j u 0) (seq 0 n)).

Section Solve.
Context {lib : FEMLibrary}.

Definition boundary_dofs (msh : Mesh) (marker : point -> bool) : list nat :=
  locate_dofs_topological (locate_entities_boundary msh marker).

(** The boundary condition built by [solve_poisson_homog_dirichlet]. *)
Definition homog_bc (msh : Mesh) (marker : point -> bool) : DirichletBC :=
  {| bc_value := 0; bc_dofs := boundary_dofs msh marker |}.

(** [solve_poisson_homog_dirichlet(msh, f, bc_marker)] (the function space
    returned alongside is only used for plotting). *)
Definition solve_poisson_homog_dirichlet
    (msh : Mesh) (f : point -> R) (marker : point -> bool) : Function :=
  let bc := homog_bc msh marker in
  let a := assemble_matrix msh in
  let L := assemble_rhs msh f in
  {| function_mesh := msh;
     x_array := lu_solve (length (geometry_x msh)) (bc_matrix bc a) (bc_rhs bc a L) |}.

(** The direct solve returned a vector with one entry per degree of freedom
    that solves the system it was given. *)
Definition solve_exact (msh : Mesh) (f : point -> R) (marker : point -> bool) : Prop :=
  let bc := homog_bc msh marker in
  let a := assemble_matrix msh in
  let L := assemble_rhs msh f in
  let n := length (geometry_x msh) in
  length (lu_solve n (bc_matrix bc a) (bc_rhs bc a L)) = n
  /\ forall i, (i < n)%nat ->
       mat_vec n (bc_matrix bc a) (lu_solve n (bc_matrix bc a) (bc_rhs bc a L)) i
       = bc_rhs bc a L i.
End Solve.

(** ** The adaptive loop *)

(** The variables the loop carries from one iteration to the next. *)
Record LoopState : Type := {
  msh : Mesh;
  uh : Function;
  tot_residual : R;
  iteration : nat
}.

Section Loop.
Context {lib : FEMLibrary}.
Variable f : point -> R.   (* the source term, re-evaluated on each mesh *)

(** [tot_residual = 1; iteration = 0] *)
Definition init_state (msh0 : Mesh) (uh0 : Function) : LoopState :=
  {| msh := msh0; uh := uh0; tot_residual := 1; iteration := 0 |}.

(** One pass through the body of the [while] loop. *)
Definition loop_body (st : LoopState) : LoopState :=
  let n := num_cells (msh st) in
  let res := array_cell_res (msh st) (uh st) f in
  let marked := marked_cells n res in
  let edges := collect_edges (msh st) marked in
  let msh' := refine (msh st) edges in
  {| msh := msh';
     uh := solve_poisson_homog_dirichlet msh' f bc_marker;
     tot_residual := np_sum res;
     iteration := S (iteration st) |}.

(** [while tot_residual > 5e-2: body], run for at most [fuel] passes:
    [None] means the guard was still true when the fuel ran out. *)
Fixpoint while_loop (fuel : nat) (st : LoopState) : option LoopState :=
  if Rltb (5 / 100) (tot_residual st) then
    match fuel with
    | O => None
    | S fuel' => while_loop fuel' (loop_body st)
    end
  else Some st.

(** The state after [k] passes through the body. *)
Fixpoint passes (k : nat) (st : LoopState) : LoopState :=
  match k with
  | O => st
  | S k' => passes k' (loop_body st)
  end.
End Loop.

(** The source term of the notebook:
    [f = 40 * exp(-((x[0] - 0.75)**2 + (x[1] - 0.75)**2) / 0.01)] *)
Definition f_source (x : point) : R :=
  40 * exp (- ((fst x - 75 / 100) ^ 2 + (snd x - 75 / 100) ^ 2) / (1 / 100)).

(** ** Vocabulary of the statements *)

(** What [sorted] needs of [<]: a strict weak order. *)
Record StrictWeakOrder {K : Type} (lt : K -> K -> bool) : Prop := {
  lt_irrefl : forall x, lt x x = false;
  lt_trans : forall x y z, lt x y = true -> lt y z = true -> lt x z = true;
  lt_negtrans : forall x y z, lt x z = true -> lt x y = true \/ lt y z = true
}.

(** The order a stable sort produces from a list ordered by [before]: by
    key, and by [before] among equal keys. *)
Definition stable_rel {A K : Type} (lt : K -> K -> bool) (key : A -> K)
    (before : A -> A -> Prop) (x y : A) : Prop :=
  lt (key x) (key y) = true \/ (lt (key y) (key x) = false /\ before x y).

(** Cell [i] is ranked before cell [j]: its indicator is larger, or the
    indicators are equal and [i] is the smaller index. *)
Definition ranks_before (array_cell_res : list R) (i j : nat) : Prop :=
  nth j array_cell_res 0 < nth i array_cell_res 0
  \/ (nth i array_cell_res 0 = nth j array_cell_res 0 /\ (i < j)%nat).

(** The area of a cell: the integral of [1] over it. *)
Definition area (c : Cell) : R := integrate (cell_dx c) (fun _ => 1).

(** [E] is an interior edge of cell [T]. *)
Definition incident (T : nat) (E : InteriorFacet) : bool :=
  Nat.eqb (facet_plus E) T || Nat.eqb (facet_minus E) T.

(** The weight the residual form puts on an interior facet:
    [np.sqrt(2)*avg(cell_area**(1./2))]. *)
Definition facet_weight (msh : Mesh) (E : InteriorFacet) : R :=
  sqrt 2 * avg (fun K => sqrt (cell_area msh K)) E.

(** Every quadrature weight of the mesh is non-negative. *)
Definition nonneg_rule (q : rule) : Prop := Forall (fun wx => 0 <= fst wx) q.

Definition nonneg_measures (msh : Mesh) : Prop :=
  Forall (fun c => nonneg_rule (cell_dx c)) (cells msh)
  /\ Forall (fun E => nonneg_rule (facet_dS E)) (interior_facets msh).

(** An interior facet lies between two different cells. *)
Definition two_sided (msh : Mesh) : Prop :=
  Forall (fun E => facet_plus E <> facet_minus E) (interior_facets msh).

(** The boundary of the rectangle [[0,2] x [0,1]]: its four edges. *)
Definition on_rectangle_boundary (x : point) : Prop :=
  (0 <= fst x <= 2 /\ 0 <= snd x <= 1)
  /\ (fst x = 0 \/ fst x = 2 \/ snd x = 0 \/ snd x = 1).

(** The mesh covers the rectangle: its exterior facets join vertices of the
    four edges, and every vertex on the four edges ends an exterior facet. *)
Definition triangulates_rectangle (msh : Mesh) : Prop :=
  (forall fa, In fa (boundary_facets msh) ->
     (fst fa < length (geometry_x msh))%nat /\ (snd fa < length (geometry_x msh))%nat
     /\ on_rectangle_boundary (vertex msh (fst fa))
     /\ on_rectangle_boundary (vertex msh (snd fa)))
  /\ (forall v, (v < length (geometry_x msh))%nat ->
        on_rectangle_boundary (vertex msh v) ->
        exists fa, In fa (boundary_facets msh) /\ (v = fst fa \/ v = snd fa)).

(** The contract of edge-based refinement relied upon: bisecting at least
    one edge of the mesh yields a mesh with more cells. *)
Definition refine_splits (lib : FEMLibrary) : Prop :=
  forall m edges e cell,
    In e edges -> In e (c_to_e_links m cell) ->
    (num_cells m < num_cells (refine m edges))%nat.

Section Claimed.
Context {lib : FEMLibrary}.

(** The indicator as the specification words it, for a facet weight [wE]:
    [area(T) * (div(grad(u_h)) - f)^2] integrated over [T], plus for each
    interior edge [E] of [T] the term [wE * jump^2] integrated over [E]. *)
Definition claimed_indicator (wE : InteriorFacet -> R)
    (m : Mesh) (u : Function) (f : point -> R) (T : nat) (c : Cell) : R :=
  integrate (cell_dx c) (fun x => area c * (div_grad u T x - f x) ^ 2)
  + np_sum (map (fun E => integrate (facet_dS E) (fun x => wE E * (jump (grad u) E x) ^ 2))
                (filter (incident T) (interior_facets m))).
End Claimed.

(** ** Concrete instances *)

(** The rectangle [[0,2] x [0,1]] cut along a diagonal into two triangles of
    area 1, with the one-point rule on each cell and on the diagonal. *)
Definition rect_mesh : Mesh :=
  {| cells := [ {| cell_edges := (0, 1, 2)%nat; cell_dx := [(1, (4 / 3, 1 / 3))] |};
                {| cell_edges := (2, 3, 4)%nat; cell_dx := [(1, (2 / 3, 2 / 3))] |} ];
     interior_facets :=
       [ {| facet_plus := 0; facet_minus := 1;
            normal_plus := (- 1 / sqrt 5, 2 / sqrt 5);
            normal_minus := (1 / sqrt 5, - 2 / sqrt 5);
            facet_dS := [(sqrt 5, (1, 1 / 2))] |} ];
     geometry_x := [(0, 0); (2, 0); (2, 1); (0, 1)];
     boundary_facets := [(0, 1); (1, 2); (2, 3); (3, 0)]%nat |}.

Definition zero_function (m : Mesh) : Function :=
  {| function_mesh := m; x_array := repeat 0 (length (geometry_x m)) |}.

(** A cell has one of the listed edges. *)
Definition has_marked_edge (edges : list nat) (c : Cell) : bool :=
  let '(e0, e1, e2) := cell_edges c in
  existsb (fun e => Nat.eqb e e0 || Nat.eqb e e1 || Nat.eqb e e2) edges.

(** One half of a cell: same edges, halved weights. *)
Definition half_cell (c : Cell) : Cell :=
  {| cell_edges := cell_edges c;
     cell_dx := map (fun wx => (fst wx / 2, snd wx)) (cell_dx c) |}.

(** A stand-in for bisection: every cell with a listed edge is cut in two. *)
Definition bisect_marked (m : Mesh) (edges : list nat) : Mesh :=
  {| cells := flat_map (fun c => if has_marked_edge edges c
                                 then [half_cell c; half_cell c] else [c]) (cells m);
     interior_facets := interior_facets m;
     geometry_x := geometry_x m;
     boundary_facets := boundary_facets m |}.

(** A library at rest: functions have no gradient, the load vanishes and the
    solver returns the zero vector. *)
Definition rest_library : FEMLibrary :=
  {| refine := bisect_marked;
     grad := fun _ _ _ => (0, 0);
     div_grad := fun _ _ _ => 0;
     assemble_matrix := fun _ i j => if Nat.eqb i j then 1 else 0;
     assemble_rhs := fun _ _ _ => 0;
     lu_solve := fun n _ _ => repeat 0 n |}.

(** ** The stand-alone first pass and the whole notebook *)

Section FirstPass.
Context {lib : FEMLibrary}.
Variable f : point -> R.

(** The cells between the first solve and the loop: estimate with the
    first-pass form, mark, collect the edges, refine and solve again.  The
    result is the new mesh, the new solution and the total residual (which
    the loop then resets to 1). *)
Definition first_pass (msh0 : Mesh) (uh0 : Function) : Mesh * Function * R :=
  let n := num_cells msh0 in
  let res := assemble_vector msh0 (residual_first_pass msh0 uh0 f) in
  let marked := marked_cells n res in
  let edges := collect_edges msh0 marked in
  let msh' := refine msh0 edges in
  (msh', solve_poisson_homog_dirichlet msh' f bc_marker, np_sum res).

(** The notebook from the mesh it creates: first solve, stand-alone pass,
    then the loop. *)
Definition run_notebook (fuel : nat) (msh0 : Mesh) : option LoopState :=
  let uh0 := solve_poisson_homog_dirichlet msh0 f bc_marker in
  let '(msh1, uh1, _) := first_pass msh0 uh0 in
  while_loop f fuel (init_state msh1 uh1).
End FirstPass.

(** Both sides of every interior facet are cells of the mesh. *)
Definition sides_in_range (m : Mesh) : Prop :=
  Forall (fun E => (facet_plus E < num_cells m)%nat /\ (facet_minus E < num_cells m)%nat)
         (interior_facets m).

(** The rectangle with a vertex at its centre, joined to the four corners. *)
Definition fan_mesh : Mesh :=
  {| cells := [ {| cell_edges := (0, 4, 5)%nat; cell_dx := [(1 / 2, (1, 1 / 6))] |};
                {| cell_edges := (1, 5, 6)%nat; cell_dx := [(1 / 2, (5 / 3, 1 / 2))] |};
                {| cell_edges := (2, 6, 7)%nat; cell_dx := [(1 / 2, (1, 5 / 6))] |};
                {| cell_edges := (3, 7, 4)%nat; cell_dx := [(1 / 2, (1 / 3, 1 / 2))] |} ];
     interior_facets :=
       [ {| facet_plus := 0; facet_minus := 3;
            normal_plus := (- 1 / sqrt 5, 2 / sqrt 5);
            normal_minus := (1 / sqrt 5, - 2 / sqrt 5);
            facet_dS := [(sqrt 5 / 2, (1 / 2, 1 / 4))] |};
         {| facet_plus := 0; facet_minus := 1;
            normal_plus := (1 / sqrt 5, 2 / sqrt 5);
            normal_minus := (- 1 / sqrt 5, - 2 / sqrt 5);
            facet_dS := [(sqrt 5 / 2, (3 / 2, 1 / 4))] |};
         {| facet_plus := 1; facet_minus := 2;
            normal_plus := (- 1 / sqrt 5, 2 / sqrt 5);
            normal_minus := (1 / sqrt 5, - 2 / sqrt 5);
            facet_dS := [(sqrt 5 / 2, (3 / 2, 3 / 4))] |};
         {| facet_plus := 2; facet_minus := 3;
            normal_plus := (- 1 / sqrt 5, - 2 / sqrt 5);
            normal_minus := (1 / sqrt 5, 2 / sqrt 5);
            facet_dS := [(sqrt 5 / 2, (1 / 2, 3 / 4))] |} ];
     geometry_x := [(0, 0); (2, 0); (2, 1); (0, 1); (1, 1 / 2)];
     boundary_facets := [(0, 1); (1, 2); (2, 3); (3, 0)]%nat |}.

(** *** A degree-1 library on the fan mesh *)

(** The matrix of [inner(grad(u), grad(v)) * dx] for the degree-1 space on
    the fan mesh. *)
Definition fan_stiffness : list (list R) :=
  [ [5 / 4; 3 / 8; 0; - 3 / 8; - 5 / 4];
    [3 / 8; 5 / 4; - 3 / 8; 0; - 5 / 4];
    [0; - 3 / 8; 5 / 4; 3 / 8; - 5 / 4];
    [- 3 / 8; 0; 3 / 8; 5 / 4; - 5 / 4];
    [- 5 / 4; - 5 / 4; - 5 / 4; - 5 / 4; 5] ].

(** The cells around each vertex of the fan mesh. *)
Definition fan_cells_of_vertex : list (list nat) :=
  [ [0; 3]; [0; 1]; [1; 2]; [2; 3]; [0; 1; 2; 3] ]%nat.

(** The value at the centroid of cell [K] of the degree-1 basis function of
    vertex [i]. *)
Definition fan_basis (i K : nat) : R :=
  if existsb (Nat.eqb K) (nth i fan_cells_of_vertex []) then 1 / 3 else 0.

(** The gradients of the degree-1 basis functions on each cell of the fan
    mesh, by vertex. *)
Definition fan_gradients : list (list (nat * point)) :=
  [ [(0%nat, (- 1 / 2, - 1)); (1%nat, (1 / 2, - 1)); (4%nat, (0, 2))];
    [(1%nat, (1 / 2, - 1)); (2%nat, (1 / 2, 1)); (4%nat, (- 1, 0))];
    [(2%nat, (1 / 2, 1)); (3%nat, (- 1 / 2, 1)); (4%nat, (0, - 2))];
    [(3%nat, (- 1 / 2, 1)); (0%nat, (- 1 / 2, - 1)); (4%nat, (1, 0))] ].

(** A direct solve for systems whose matrix is diagonal. *)
Definition diag_solve (n : nat) (A : nat -> nat -> R) (b : nat -> R) : list R :=
  map (fun i => b i / A i i) (seq 0 n).

(** The degree-1 discretisation on the fan mesh: gradients from the dof
    values, no second derivatives, the stiffness matrix, the load vector by
    the one-point rule, and the diagonal solve (with the four boundary dofs
    constrained the system of the fan mesh is diagonal). *)
Definition fan_library : FEMLibrary :=
  {| refine := bisect_marked;
     grad := fun u K _ =>
       fold_right (fun ig acc => (nth (fst ig) (x_array u) 0 * fst (snd ig) + fst acc,
                                  nth (fst ig) (x_array u) 0 * snd (snd ig) + snd acc))
                  (0, 0) (nth K fan_gradients []);
     div_grad := fun _ _ _ => 0;
     assemble_matrix := fun _ i j => nth j (nth i fan_stiffness []) 0;
     assemble_rhs := fun m f i =>
       np_sum (map (fun Kc => integrate (cell_dx (snd Kc))
                                (fun x => f x * fan_basis i (fst Kc)))
                   (enumerate (cells m)));
     lu_solve := diag_solve |}.

(** ** What a pass reports *)

(** The effects of a pass that leave the loop state alone: the console
    line, the snapshot written to the output file, the plot. *)
Inductive Event : Type :=
| Print (iteration_number : nat) (residual_value : R)
| WriteFunction (snapshot : Function) (time : nat)
| Viz (shown : Function).

(** The end of the loop body, for the state [st] the pass has produced:
    [print(f"Iteration: {iteration}, residual: {tot_residual}")],
    [writer.write_function(uh, iteration)] and
    [if iteration%3==0: viz(V, uh)]. *)
Definition pass_events (st : LoopState) : list Event :=
  [Print (iteration st) (tot_residual st); WriteFunction (uh st) (iteration st)]
  ++ (if Nat.eqb (iteration st mod 3) 0 then [Viz (uh st)] else []).

Section Trace.
Context {lib : FEMLibrary}.
Variable f : point -> R.

(** The events of the first [k] passes from a state, in order. *)
Fixpoint trace (k : nat) (st : LoopState) : list Event :=
  match k with
  | O => []
  | S k' => pass_events (loop_body f st) ++ trace k' (loop_body f st)
  end.
End Trace.

(** The console lines of a list of events. *)
Definition printed (evs : list Event) : list (nat * R) :=
  flat_map (fun ev => match ev with Print i r => [(i, r)] | _ => [] end) evs.

(** The snapshot times of a list of events. *)
Definition written_times (evs : list Event) : list nat :=
  flat_map (fun ev => match ev with WriteFunction _ t => [t] | _ => [] end) evs.

(** The number of plots in a list of events. *)
Definition viz_count (evs : list Event) : nat :=
  length (filter (fun ev => match ev with Viz _ => true | _ => false end) evs).

(** ** The channel-flow notebook: markers and right-hand side *)

(** [def noslip_boundary(x): return np.isclose(x[1], 0.0) | np.isclose(x[1], 1.0)] *)
Definition noslip_boundary (x : point) : bool :=
  isclose (snd x) 0 || isclose (snd x) 1.

(** [def inflow(x): return np.isclose(x[0], 0.0)] *)
Definition inflow (x : point) : bool := isclose (fst x) 0.

(** A Dirichlet condition with dof-wise values, as built from a function. *)
Record FunctionBC : Type := {
  fbc_dofs : list nat;
  fbc_g : nat -> R
}.

(** [bc.set(b)]: the constrained entries of [b] receive the prescribed values. *)
Definition bc_set (b : nat -> R) (bc : FunctionBC) : nat -> R :=
  fun i => if existsb (Nat.eqb i) (fbc_dofs bc) then fbc_g bc i else b i.

(** [for bc in bcs: bc.set(b)] *)
Definition set_bcs (bcs : list FunctionBC) (b : nat -> R) : nat -> R :=
  fold_left bc_set bcs b.

(* ================================================================== *)
(** * Part II: properties *)
(* ================================================================== *)

(** ** Rounding of [0.05*num_cells] *)

Module Binary64Facts.
Import Binary64.
Open Scope Z_scope.

Lemma rne_small p : Z.log2 p <= 52 -> rne p = p.
Proof.
  intros H. unfold rne.
  destruct (Z.leb_spec (Z.log2 p - 52) 0); [reflexivity | lia].
Qed.

Lemma float_of_int_exact n : 0 <= n < 2 ^ 53 -> float_of_int n = n.
Proof.
  intros [H0 H1]. apply rne_small.
  destruct (Z.eq_dec n 0) as [-> | Hn]; [discriminate|].
  assert (Z.log2 n < 53) by (apply Z.log2_lt_pow2; lia). lia.
Qed.

(** Above 53 bits the rounded value is one of the two neighbours of [p] on
    the grid of spacing [2^s], the nearer one. *)
Lemma rne_spec p :
  2 ^ 53 <= p < 2 ^ 105 ->
  exists s q r,
    1 <= s <= 52 /\ p = q * 2 ^ s + r /\ 0 <= r < 2 ^ s /\
    2 ^ 52 <= q < 2 ^ 53 /\
    ((rne p = q * 2 ^ s /\ r <= 2 ^ (s - 1)) \/
     (rne p = (q + 1) * 2 ^ s /\ 2 ^ (s - 1) <= r)).
Proof.
  intros [Hlo Hhi].
  assert (Hp : 0 < p) by (apply Z.lt_le_trans with (2 ^ 53); [reflexivity | exact Hlo]).
  assert (HL1 : 53 <= Z.log2 p) by (apply Z.log2_le_pow2; assumption).
  assert (HL2 : Z.log2 p < 105) by (apply Z.log2_lt_pow2; assumption).
  destruct (Z.log2_spec p Hp) as [Hl Hu].
  set (s := Z.log2 p - 52) in *.
  exists s, (Z.shiftr p s), (p mod 2 ^ s).
  assert (Hs : 1 <= s <= 52) by (unfold s; lia).
  assert (HS : 0 < 2 ^ s) by (apply Z.pow_pos_nonneg; lia).
  rewrite Z.shiftr_div_pow2 by lia.
  split; [exact Hs|].
  split; [rewrite Z.mul_comm; apply Z.div_mod; lia|].
  split; [apply Z.mod_pos_bound; exact HS|].
  split.
  - replace (Z.log2 p) with (s + 52) in Hl by (unfold s; lia).
    replace (Z.succ (Z.log2 p)) with (s + 53) in Hu by (unfold s; lia).
    rewrite Z.pow_add_r in Hl, Hu by lia.
    split.
    + apply Z.div_le_lower_bound; [exact HS | lia].
    + apply Z.div_lt_upper_bound; [exact HS | lia].
  - unfold rne. fold s.
    destruct (Z.leb_spec s 0); [lia|].
    rewrite Z.shiftr_div_pow2 by lia.
    destruct (Z.ltb_spec (p mod 2 ^ s) (2 ^ (s - 1))); [left; split; [reflexivity | lia]|].
    destruct (Z.ltb_spec (2 ^ (s - 1)) (p mod 2 ^ s)); [right; split; [reflexivity | lia]|].
    destruct (Z.even (p / 2 ^ s)); [left | right]; split; try reflexivity; lia.
Qed.

(** Rounding never reaches zero from a positive value. *)
Lemma rne_pos p : 0 < p -> 0 < rne p.
Proof.
  intros Hp. unfold rne.
  destruct (Z.leb_spec (Z.log2 p - 52) 0) as [_ | Hs]; [exact Hp|].
  set (s := Z.log2 p - 52) in *.
  assert (HS : 0 < 2 ^ s) by (apply Z.pow_pos_nonneg; lia).
  assert (Hq : 1 <= Z.shiftr p s).
  { rewrite Z.shiftr_div_pow2 by lia.
    apply Z.div_le_lower_bound; [exact HS|].
    destruct (Z.log2_spec p Hp) as [Hl _].
    assert (2 ^ s <= 2 ^ Z.log2 p) by (apply Z.pow_le_mono_r; unfold s; lia).
    lia. }
  assert (0 < Z.shiftr p s * 2 ^ s) by (apply Z.mul_pos_pos; lia).
  assert (0 < (Z.shiftr p s + 1) * 2 ^ s) by (apply Z.mul_pos_pos; lia).
  repeat match goal with |- context [if ?b then _ else _] => destruct b end; assumption.
Qed.

Lemma ceil56_between P k : k * 2 ^ 56 < P <= (k + 1) * 2 ^ 56 -> ceil56 P = k + 1.
Proof.
  intros H. unfold ceil56. symmetry.
  apply Z.div_unique with (r := P - k * 2 ^ 56 - 1); lia.
Qed.

Lemma ceil56_exact k : ceil56 (k * 2 ^ 56) = k.
Proof.
  unfold ceil56. symmetry.
  apply Z.div_unique with (r := 2 ^ 56 - 1); lia.
Qed.

Lemma ceil56_pos P : 0 < P -> 1 <= ceil56 P.
Proof.
  intros H. unfold ceil56. apply Z.div_le_lower_bound; lia.
Qed.

(** The double product [0.05*n], rounded up, is the exact ceiling of [n/20]:
    the excess of the double [0.05] over [1/20] is absorbed by the rounding
    when [n] is a multiple of 20 and is too small to matter otherwise. *)
Lemma ceil_fl_mul_005 n : 0 <= n < 2 ^ 53 -> ceil56 (fl_mul_005 n) = (n + 19) / 20.
Proof.
  intros Hn. unfold fl_mul_005. rewrite (float_of_int_exact n) by exact Hn.
  destruct (Z.lt_ge_cases (c005 * n) (2 ^ 53)) as [Hsm | Hbig].
  - assert (n = 0 \/ n = 1 \/ n = 2) as [-> | [-> | ->]] by (unfold c005 in Hsm; lia);
      vm_compute; reflexivity.
  - destruct (rne_spec (c005 * n)) as (s & q & r & Hs & Hp & Hr & Hq & Hround).
    { split; [exact Hbig | unfold c005; lia]. }
    set (S := 2 ^ s) in *. set (H := 2 ^ (s - 1)) in *.
    set (T := 2 ^ (56 - s)).
    assert (HS : S = 2 * H).
    { unfold S, H. replace s with (1 + (s - 1)) at 1 by lia.
      rewrite Z.pow_add_r by lia. reflexivity. }
    assert (HH : 0 < H <= 2 ^ 51).
    { unfold H. split; [apply Z.pow_pos_nonneg; lia|].
      apply Z.pow_le_mono_r; lia. }
    assert (HB : 2 ^ 56 = T * S).
    { unfold T, S. rewrite <- Z.pow_add_r by lia. f_equal. lia. }
    assert (HT : 0 < T) by (unfold T; apply Z.pow_pos_nonneg; lia).
    pose proof (Z.div_mod n 20 ltac:(lia)) as Hdm.
    pose proof (Z.mod_pos_bound n 20 ltac:(lia)) as Hmb.
    set (k := n / 20) in *. set (r0 := n mod 20) in *.
    assert (Hk : 0 <= k) by lia.
    assert (Hc : 20 * (c005 * n) = (2 ^ 56 + 4) * n) by (unfold c005; lia).
    assert (Hrhs : (n + 19) / 20 = if r0 =? 0 then k else k + 1).
    { destruct (Z.eqb_spec r0 0); symmetry.
      - apply Z.div_unique with (r := 19); lia.
      - apply Z.div_unique with (r := r0 - 1); lia. }
    rewrite Hrhs.
    assert (HqS : q * S <= c005 * n < (q + 1) * S) by lia.
    destruct (Z.eqb_spec r0 0) as [Hr0 | Hr0].
    + (* n is a multiple of 20: the product rounds to the integer k *)
      assert (Hpk : c005 * n = k * 2 ^ 56 + 4 * k) by lia.
      assert (H8k : 8 * k < S).
      { assert ((q + 1) * S <= 2 ^ 53 * S) by (apply Z.mul_le_mono_nonneg_r; lia).
        lia. }
      assert (Huniq : q = k * T /\ r = 4 * k).
      { apply (Z.div_mod_unique S); [lia | lia |].
        rewrite (Z.mul_comm S q), (Z.mul_comm S (k * T)), <- Hp, Hpk, HB. ring. }
      destruct Huniq as [Hqk Hrk].
      destruct Hround as [[-> _] | [_ Hge]]; [| lia].
      rewrite Hqk, <- Z.mul_assoc, <- HB. apply ceil56_exact.
    + (* otherwise the rounded product stays strictly between k and k+1 *)
      assert (Hlo : k * 2 ^ 56 < c005 * n) by lia.
      assert (Hhi : c005 * n < (k + 1) * 2 ^ 56) by lia.
      rewrite HB in Hlo, Hhi. rewrite !Z.mul_assoc in Hlo, Hhi.
      assert (HqT1 : q < (k + 1) * T).
      { apply (Z.mul_lt_mono_pos_r S); lia. }
      assert (HqT2 : k * T < q + 1).
      { apply (Z.mul_lt_mono_pos_r S); lia. }
      apply ceil56_between. rewrite HB, !Z.mul_assoc.
      assert (Hup : (q + 1) * S <= (k + 1) * T * S)
        by (apply Z.mul_le_mono_nonneg_r; lia).
      assert (Hdn : k * T * S <= q * S)
        by (apply Z.mul_le_mono_nonneg_r; lia).
      destruct Hround as [[-> Hle] | [-> _]]; [| lia].
      split; [| lia].
      destruct (Z.eq_dec q (k * T)) as [Heq | Hne].
      * exfalso. rewrite Heq, <- Z.mul_assoc, <- HB in Hp.
        assert (20 * r = r0 * 2 ^ 56 + 4 * n) by lia.
        lia.
      * assert (k * T + 1 <= q) by lia.
        assert ((k * T + 1) * S <= q * S) by (apply Z.mul_le_mono_nonneg_r; lia).
        lia.
Qed.

End Binary64Facts.

Lemma num_cells_to_refine_div (n : nat) :
  (Z.of_nat n < 2 ^ 53)%Z -> num_cells_to_refine n = ((n + 19) / 20)%nat.
Proof.
  intros H. unfold num_cells_to_refine.
  rewrite Binary64Facts.ceil_fl_mul_005 by lia.
  rewrite <- (Nat2Z.id ((n + 19) / 20)). f_equal.
  rewrite Nat2Z.inj_div, Nat2Z.inj_add. reflexivity.
Qed.

Lemma num_cells_to_refine_pos (n : nat) :
  (1 <= n)%nat -> (1 <= num_cells_to_refine n)%nat.
Proof.
  intros H. unfold num_cells_to_refine, Binary64.fl_mul_005, Binary64.float_of_int.
  assert (0 < Binary64.rne (Z.of_nat n))%Z by (apply Binary64Facts.rne_pos; lia).
  assert (0 < Binary64.rne (Binary64.c005 * Binary64.rne (Z.of_nat n)))%Z.
  { apply Binary64Facts.rne_pos. unfold Binary64.c005. lia. }
  pose proof (Binary64Facts.ceil56_pos _ H1). lia.
Qed.

Example num_cells_to_refine_16 : num_cells_to_refine 16 = 1%nat.
Proof. vm_compute. reflexivity. Qed.

Example num_cells_to_refine_140 : num_cells_to_refine 140 = 7%nat.
Proof. vm_compute. reflexivity. Qed.

(** ** [sorted] is a stable sort *)

Section SortedFacts.
Context {A K : Type}.
Variable lt : K -> K -> bool.
Variable key : A -> K.
Hypothesis lt_swo : StrictWeakOrder lt.

Lemma insort_right_perm (x : A) (l : list A) :
  Permutation (insort_right lt key x l) (x :: l).
Proof.
  induction l as [| y l IH]; simpl.
  - apply Permutation_refl.
  - destruct (lt (key x) (key y)).
    + apply Permutation_refl.
    + apply perm_trans with (y :: x :: l).
      * apply perm_skip. exact IH.
      * apply perm_swap.
Qed.

Lemma fold_insort_perm (l acc : list A) :
  Permutation (fold_left (fun acc x => insort_right lt key x acc) l acc) (acc ++ l).
Proof.
  revert acc. induction l as [| x l IH]; intros acc; simpl.
  - rewrite app_nil_r. apply Permutation_refl.
  - eapply perm_trans; [apply IH|].
    eapply perm_trans; [apply Permutation_app_tail, insort_right_perm|].
    simpl. apply Permutation_middle.
Qed.

Lemma stable_sort_perm (l : list A) : Permutation (stable_sort lt key l) l.
Proof. unfold stable_sort. apply (fold_insort_perm l []). Qed.

Lemma sorted_perm (reverse : bool) (l : list A) :
  Permutation (sorted lt key reverse l) l.
Proof.
  unfold sorted. destruct reverse.
  - eapply perm_trans; [symmetry; apply Permutation_rev|].
    eapply perm_trans; [apply stable_sort_perm|].
    symmetry. apply Permutation_rev.
  - apply stable_sort_perm.
Qed.

Variable before : A -> A -> Prop.

(** Inserting an element that comes after all those already placed keeps
    the list ordered by key, then by arrival. *)
Lemma insort_right_sorted (x : A) (l : list A) :
  StronglySorted (stable_rel lt key before) l ->
  Forall (fun y => before y x) l ->
  StronglySorted (stable_rel lt key before) (insort_right lt key x l).
Proof.
  induction l as [| y l IH]; intros Hs Hb; simpl.
  - constructor; constructor.
  - inversion Hs as [| ? ? Hs' Hy]; subst.
    inversion Hb as [| ? ? Hyx Hb']; subst.
    destruct (lt (key x) (key y)) eqn:Hxy.
    + constructor; [exact Hs|].
      constructor; [left; exact Hxy|].
      rewrite Forall_forall in Hy |- *. intros z Hz.
      left. destruct (Hy z Hz) as [Hyz | [Hzy _]].
      * exact (lt_trans lt lt_swo _ _ _ Hxy Hyz).
      * destruct (lt_negtrans lt lt_swo _ (key z) _ Hxy) as [Hxz | Hzy'];
          [exact Hxz | congruence].
    + constructor; [apply IH; assumption|].
      apply (Permutation_Forall (Permutation_sym (insort_right_perm x l))).
      constructor; [right; split; assumption | exact Hy].
Qed.

Lemma fold_insort_sorted (l acc : list A) :
  StronglySorted (stable_rel lt key before) acc ->
  StronglySorted before l ->
  Forall (fun y => Forall (before y) l) acc ->
  StronglySorted (stable_rel lt key before)
    (fold_left (fun acc x => insort_right lt key x acc) l acc).
Proof.
  revert acc. induction l as [| x l IH]; intros acc Hacc Hl Hal; simpl.
  - exact Hacc.
  - inversion Hl as [| ? ? Hl' Hx]; subst.
    apply IH.
    + apply insort_right_sorted; [exact Hacc|].
      eapply Forall_impl; [| exact Hal].
      intros y Hy. inversion Hy; assumption.
    + exact Hl'.
    + apply (Permutation_Forall (Permutation_sym (insort_right_perm x acc))).
      constructor; [exact Hx|].
      eapply Forall_impl; [| exact Hal].
      intros y Hy. inversion Hy; assumption.
Qed.

Lemma stable_sort_sorted (l : list A) :
  StronglySorted before l ->
  StronglySorted (stable_rel lt key before) (stable_sort lt key l).
Proof.
  intros Hl. unfold stable_sort.
  apply fold_insort_sorted; [constructor | exact Hl | constructor].
Qed.

End SortedFacts.

Lemma StronglySorted_app_rev {A : Type} (R : A -> A -> Prop) (l : list A) :
  StronglySorted R l -> StronglySorted (fun x y => R y x) (rev l).
Proof.
  induction 1 as [| a l Hs IH Ha]; simpl.
  - constructor.
  - assert (Hgen : forall l1, StronglySorted (fun x y => R y x) l1 ->
                     Forall (fun z => R a z) l1 ->
                     StronglySorted (fun x y => R y x) (l1 ++ [a])).
    { induction l1 as [| b l1 IH1]; intros H1 H2; simpl.
      - constructor; constructor.
      - inversion H1; subst. inversion H2; subst.
        constructor; [apply IH1; assumption|].
        apply Forall_app. split; [assumption | constructor; [assumption | constructor]]. }
    apply Hgen; [exact IH|].
    apply Forall_rev. exact Ha.
Qed.

Lemma StronglySorted_weaken {A : Type} (R1 R2 : A -> A -> Prop) (l : list A) :
  (forall x y, In x l -> In y l -> R1 x y -> R2 x y) ->
  StronglySorted R1 l -> StronglySorted R2 l.
Proof.
  intros Himp Hs. induction Hs as [| a l Hs IH Ha].
  - constructor.
  - constructor.
    + apply IH. intros x y Hx Hy. apply Himp; right; assumption.
    + rewrite Forall_forall in Ha |- *. intros y Hy.
      apply Himp; [left; reflexivity | right; exact Hy | apply Ha; exact Hy].
Qed.

Lemma StronglySorted_map {A B : Type} (f : A -> B) (R : B -> B -> Prop) (l : list A) :
  StronglySorted (fun x y => R (f x) (f y)) l -> StronglySorted R (map f l).
Proof.
  induction 1 as [| a l Hs IH Ha]; simpl; constructor.
  - exact IH.
  - rewrite Forall_map. exact Ha.
Qed.

(** With [reverse=True] equal keys still come out in their original order. *)
Lemma sorted_reverse_sorted {A K : Type} (lt : K -> K -> bool) (key : A -> K)
    (before : A -> A -> Prop) (l : list A) :
  StrictWeakOrder lt ->
  StronglySorted before l ->
  StronglySorted
    (fun x y => lt (key y) (key x) = true \/ (lt (key x) (key y) = false /\ before x y))
    (sorted lt key true l).
Proof.
  intros Hswo Hl. unfold sorted.
  apply (StronglySorted_app_rev (stable_rel lt key (fun x y => before y x))).
  apply stable_sort_sorted; [exact Hswo|].
  apply StronglySorted_app_rev. exact Hl.
Qed.

(** ** Ranking of the cells *)

Lemma combine_seq_fst {A : Type} (l : list A) (s : nat) :
  map fst (combine (seq s (length l)) l) = seq s (length l).
Proof.
  revert s. induction l as [| a l IH]; intros s; simpl; [reflexivity|].
  f_equal. apply IH.
Qed.

Lemma combine_seq_In {A : Type} (l : list A) (s i : nat) (a : A) :
  In (i, a) (combine (seq s (length l)) l) ->
  (s <= i)%nat /\ nth_error l (i - s) = Some a.
Proof.
  revert s. induction l as [| b l IH]; intros s; simpl; [tauto|].
  intros [Heq | Hin].
  - inversion Heq; subst. rewrite Nat.sub_diag. split; [lia | reflexivity].
  - destruct (IH _ Hin) as [Hle Hnth]. split; [lia|].
    replace (i - s)%nat with (S (i - S s)) by lia. exact Hnth.
Qed.

Lemma combine_seq_sorted {A : Type} (l : list A) (s : nat) :
  StronglySorted (fun x y : nat * A => (fst x < fst y)%nat) (combine (seq s (length l)) l).
Proof.
  revert s. induction l as [| a l IH]; intros s; simpl; constructor.
  - apply IH.
  - rewrite Forall_forall. intros [i b] Hin. simpl.
    destruct (combine_seq_In _ _ _ _ Hin). lia.
Qed.

Lemma enumerate_In {A : Type} (l : list A) (i : nat) (a : A) :
  In (i, a) (enumerate l) -> nth_error l i = Some a.
Proof.
  intros H. destruct (combine_seq_In _ _ _ _ H) as [_ Hn].
  rewrite Nat.sub_0_r in Hn. exact Hn.
Qed.

Lemma cell_ord_by_res_gen_perm {K : Type} (lt : K -> K -> bool) (res : list K) :
  Permutation (cell_ord_by_res_gen lt res) (seq 0 (length res)).
Proof.
  unfold cell_ord_by_res_gen.
  rewrite <- (combine_seq_fst res 0).
  apply Permutation_map. apply sorted_perm.
Qed.

Lemma cell_ord_by_res_gen_length {K : Type} (lt : K -> K -> bool) (res : list K) :
  length (cell_ord_by_res_gen lt res) = length res.
Proof.
  rewrite (Permutation_length (cell_ord_by_res_gen_perm lt res)).
  apply length_seq.
Qed.

Lemma cell_ord_by_res_gen_In {K : Type} (lt : K -> K -> bool) (res : list K) (i : nat) :
  In i (cell_ord_by_res_gen lt res) <-> (i < length res)%nat.
Proof.
  split; intros H.
  - apply (Permutation_in _ (cell_ord_by_res_gen_perm lt res)) in H.
    apply in_seq in H. lia.
  - apply (Permutation_in _ (Permutation_sym (cell_ord_by_res_gen_perm lt res))).
    apply in_seq. lia.
Qed.

(** The ranking, for any strict weak order on the indicator values: earlier
    entries have a larger value, or a value that is not smaller and a
    smaller index. *)
Lemma cell_ord_by_res_gen_sorted {K : Type} (lt : K -> K -> bool) (res : list K) (d : K) :
  StrictWeakOrder lt ->
  StronglySorted
    (fun i j => lt (nth j res d) (nth i res d) = true
                \/ (lt (nth i res d) (nth j res d) = false /\ (i < j)%nat))
    (cell_ord_by_res_gen lt res).
Proof.
  intros Hswo. unfold cell_ord_by_res_gen.
  apply StronglySorted_map.
  pose proof (sorted_reverse_sorted lt (@snd nat K) _ (enumerate res) Hswo
                (combine_seq_sorted res 0)) as Hs.
  revert Hs. apply StronglySorted_weaken.
  intros [i a] [j b] Hi Hj. simpl.
  apply (Permutation_in _ (sorted_perm lt (@snd nat K) true (enumerate res))) in Hi, Hj.
  apply enumerate_In in Hi, Hj.
  rewrite (nth_error_nth _ _ d Hi), (nth_error_nth _ _ d Hj). tauto.
Qed.

Lemma Rltb_true (x y : R) : Rltb x y = true <-> x < y.
Proof. unfold Rltb. destruct (Rlt_dec x y); split; intros; try discriminate; tauto. Qed.

Lemma Rltb_false (x y : R) : Rltb x y = false <-> y <= x.
Proof.
  unfold Rltb. destruct (Rlt_dec x y); split; intros; try discriminate; try reflexivity; lra.
Qed.

Lemma Rleb_true (x y : R) : Rleb x y = true <-> x <= y.
Proof. unfold Rleb. destruct (Rle_dec x y); split; intros; try discriminate; tauto. Qed.

Lemma Rltb_swo : StrictWeakOrder Rltb.
Proof.
  constructor.
  - intros x. apply Rltb_false. lra.
  - intros x y z H1 H2. apply Rltb_true in H1, H2. apply Rltb_true. lra.
  - intros x y z H. apply Rltb_true in H.
    destruct (Rlt_dec x y); [left | right]; apply Rltb_true; lra.
Qed.

Lemma Zltb_swo : StrictWeakOrder Z.ltb.
Proof.
  constructor.
  - intros x. apply Z.ltb_irrefl.
  - intros x y z H1 H2. apply Z.ltb_lt in H1, H2. apply Z.ltb_lt. lia.
  - intros x y z H. apply Z.ltb_lt in H.
    destruct (Z.ltb_spec x y); [left; reflexivity | right; apply Z.ltb_lt; lia].
Qed.

Lemma cell_ord_by_res_length (res : list R) :
  length (cell_ord_by_res res) = length res.
Proof. apply cell_ord_by_res_gen_length. Qed.

(** The ranking on integer indicator values, evaluated: the two cells of
    value 3 keep their order, as do the two cells of value 1. *)
Example cell_ord_by_res_ties :
  cell_ord_by_res_gen Z.ltb [3; 1; 3; 2; 1]%Z = [0; 2; 3; 1; 4]%nat.
Proof. vm_compute. reflexivity. Qed.

(** C4. For every indicator vector the ranking lists all cell indices, each
    once, ordered by indicator value descending, and cells of equal value
    appear in increasing index order (a stable descending sort). *)
Theorem cell_ord_by_res_stable_descending (res : list R) :
  Permutation (cell_ord_by_res res) (seq 0 (length res))
  /\ StronglySorted (ranks_before res) (cell_ord_by_res res).
Proof.
  split; [apply cell_ord_by_res_gen_perm|].
  pose proof (cell_ord_by_res_gen_sorted Rltb res 0 Rltb_swo) as Hs.
  revert Hs. apply StronglySorted_weaken.
  intros i j _ _ [H | [H Hij]].
  - left. apply Rltb_true. exact H.
  - apply Rltb_false in H. unfold ranks_before.
    destruct (Rlt_dec (nth j res 0) (nth i res 0)); [left; assumption|].
    right. split; [lra | exact Hij].
Qed.

(** ** Marking *)

Lemma ceil_div_20_le (n : nat) : ((n + 19) / 20 <= n)%nat.
Proof.
  destruct n as [| n]; [reflexivity|].
  apply Nat.Div0.div_le_upper_bound. lia.
Qed.

Lemma marked_cells_length (n : nat) (res : list R) :
  (Z.of_nat n < 2 ^ 53)%Z -> length res = n ->
  length (marked_cells n res) = ((n + 19) / 20)%nat.
Proof.
  intros Hn Hlen. unfold marked_cells.
  rewrite length_firstn, cell_ord_by_res_length, Hlen, num_cells_to_refine_div by exact Hn.
  apply Nat.min_l, ceil_div_20_le.
Qed.

Lemma firstn_incl {A : Type} (n : nat) (l : list A) (x : A) :
  In x (firstn n l) -> In x l.
Proof.
  revert l. induction n as [| n IH]; intros [| a l]; simpl; try tauto.
  intros [H | H]; [left; exact H | right; apply IH; exact H].
Qed.

Lemma marked_cells_in_range (n : nat) (res : list R) (cell : nat) :
  In cell (marked_cells n res) -> (cell < length res)%nat.
Proof.
  unfold marked_cells. intros H. apply firstn_incl in H.
  apply cell_ord_by_res_gen_In in H. exact H.
Qed.

(** C3. The number of marked cells is the ceiling of [0.05 * cell_count]:
    it is [(n + 19) / 20], the integer [k] with [k - 1 < 0.05 * n <= k]
    (so 128 cells give 7 marked cells).  The cell count is below [2^53],
    where its conversion to a double is exact. *)
Theorem marked_cells_count (n : nat) (res : list R) :
  (Z.of_nat n < 2 ^ 53)%Z -> length res = n ->
  length (marked_cells n res) = ((n + 19) / 20)%nat
  /\ INR (length (marked_cells n res)) - 1 < 5 / 100 * INR n
     <= INR (length (marked_cells n res)).
Proof.
  intros Hn Hlen. rewrite (marked_cells_length n res Hn Hlen).
  split; [reflexivity|].
  pose proof (Nat.div_mod_eq (n + 19) 20) as Hdm.
  pose proof (Nat.mod_upper_bound (n + 19) 20 ltac:(lia)) as Hmb.
  set (k := ((n + 19) / 20)%nat) in *.
  assert (H1 : (n <= 20 * k)%nat) by lia.
  assert (H2 : (20 * k < n + 20)%nat) by lia.
  apply le_INR in H1. apply lt_INR in H2.
  rewrite mult_INR in H1, H2. rewrite plus_INR in H2.
  assert (H20 : INR 20 = 20) by (rewrite INR_IZR_INZ; reflexivity).
  rewrite H20 in H1, H2. lra.
Qed.

(** ** Edge collection *)

Lemma fold_left_append {A : Type} (l acc : list A) :
  fold_left (fun edges e => edges ++ [e]) l acc = acc ++ l.
Proof.
  revert acc. induction l as [| a l IH]; intros acc; simpl.
  - symmetry. apply app_nil_r.
  - rewrite IH, <- app_assoc. reflexivity.
Qed.

Lemma collect_edges_flat_map (m : Mesh) (marked : list nat) :
  collect_edges m marked = flat_map (c_to_e_links m) marked.
Proof.
  unfold collect_edges.
  assert (Hgen : forall acc,
    fold_left (fun edges cell =>
                 fold_left (fun edges e => edges ++ [e]) (c_to_e_links m cell) edges)
              marked acc
    = acc ++ flat_map (c_to_e_links m) marked).
  { induction marked as [| c marked IH]; intros acc; simpl.
    - symmetry. apply app_nil_r.
    - rewrite IH, fold_left_append, <- app_assoc. reflexivity. }
  apply (Hgen []).
Qed.

Lemma count_occ_flat_map {A : Type} (l : list A) (g : A -> list nat) (e : nat) :
  count_occ Nat.eq_dec (flat_map g l) e
  = list_sum (map (fun a => count_occ Nat.eq_dec (g a) e) l).
Proof.
  induction l as [| a l IH]; simpl; [reflexivity|].
  rewrite count_occ_app, IH. reflexivity.
Qed.

Lemma c_to_e_links_length (m : Mesh) (cell : nat) :
  (cell < num_cells m)%nat -> length (c_to_e_links m cell) = 3%nat.
Proof.
  intros H. unfold c_to_e_links, num_cells in *.
  destruct (nth_error (cells m) cell) as [c |] eqn:Hc.
  - destruct (cell_edges c) as [[e0 e1] e2]. reflexivity.
  - apply nth_error_None in Hc. lia.
Qed.

(** Two marked cells that share an edge: the shared edge 2 is listed twice. *)
Example collect_edges_shared :
  collect_edges rect_mesh [0; 1]%nat = [0; 1; 2; 2; 3; 4]%nat.
Proof. reflexivity. Qed.

(** C5. The edge list passed to refinement is the concatenation, in
    marked-cell order, of the edges of each marked cell: one entry per
    (marked cell, incident edge) pair and no deduplication, an edge occurring
    as many times as the marked cells list it. *)
Theorem collect_edges_per_pair (m : Mesh) (marked : list nat) :
  collect_edges m marked = flat_map (c_to_e_links m) marked
  /\ forall e, count_occ Nat.eq_dec (collect_edges m marked) e
               = list_sum (map (fun cell => count_occ Nat.eq_dec (c_to_e_links m cell) e)
                               marked).
Proof.
  split; [apply collect_edges_flat_map|].
  intros e. rewrite collect_edges_flat_map. apply count_occ_flat_map.
Qed.

Lemma marked_cells_head (n : nat) (res : list R) :
  (1 <= n)%nat -> length res = n ->
  exists cell rest, marked_cells n res = cell :: rest /\ (cell < n)%nat.
Proof.
  intros Hn Hlen.
  pose proof (num_cells_to_refine_pos n Hn) as Hk.
  pose proof (cell_ord_by_res_length res) as Hl.
  unfold marked_cells.
  destruct (num_cells_to_refine n) as [| k]; [lia|].
  destruct (cell_ord_by_res res) as [| cell ord] eqn:Hord; [simpl in Hl; lia|].
  exists cell, (firstn k ord). split; [reflexivity|].
  rewrite <- Hlen. apply (cell_ord_by_res_gen_In Rltb).
  fold (cell_ord_by_res res). rewrite Hord. left. reflexivity.
Qed.

Lemma collect_edges_head (m : Mesh) (res : list R) :
  (1 <= num_cells m)%nat -> length res = num_cells m ->
  exists e cell, In e (collect_edges m (marked_cells (num_cells m) res))
                 /\ In e (c_to_e_links m cell).
Proof.
  intros Hn Hlen.
  destruct (marked_cells_head _ res Hn Hlen) as (cell & rest & Hm & Hc).
  rewrite collect_edges_flat_map, Hm. simpl.
  pose proof (c_to_e_links_length m cell Hc) as H3.
  destruct (c_to_e_links m cell) as [| e l] eqn:Hl; [discriminate|].
  exists e, cell. rewrite Hl. split; left; reflexivity.
Qed.

(** C10. On a mesh with at least one cell the marked set is not empty (the
    number of cells to refine is at least 1) and neither is the edge list
    passed to refinement. *)
Theorem marked_and_edges_nonempty (m : Mesh) (res : list R) :
  (1 <= num_cells m)%nat -> length res = num_cells m ->
  (1 <= num_cells_to_refine (num_cells m))%nat
  /\ marked_cells (num_cells m) res <> []
  /\ collect_edges m (marked_cells (num_cells m) res) <> [].
Proof.
  intros Hn Hlen. split; [apply num_cells_to_refine_pos; exact Hn|]. split.
  - destruct (marked_cells_head _ res Hn Hlen) as (cell & rest & Hm & _).
    rewrite Hm. discriminate.
  - destruct (collect_edges_head m res Hn Hlen) as (e & _ & He & _).
    intros Heq. rewrite Heq in He. exact He.
Qed.

(** ** Assembly over the piecewise-constant space *)

Lemma integrate_ext (q : rule) (g h : point -> R) :
  (forall x, g x = h x) -> integrate q g = integrate q h.
Proof.
  intros H. induction q as [| wx q IH]; simpl; [reflexivity|].
  rewrite IH, H. reflexivity.
Qed.

Lemma integrate_zero (q : rule) : integrate q (fun _ => 0) = 0.
Proof. induction q as [| wx q IH]; simpl; [reflexivity | rewrite IH; ring]. Qed.

Lemma integrate_nonneg (q : rule) (g : point -> R) :
  nonneg_rule q -> (forall x, 0 <= g x) -> 0 <= integrate q g.
Proof.
  intros Hq Hg. induction Hq as [| wx q Hw Hq IH]; simpl; [lra|].
  pose proof (Rmult_le_pos _ _ Hw (Hg (snd wx))). lra.
Qed.

Lemma np_sum_cons (a : R) (l : list R) : np_sum (a :: l) = a + np_sum l.
Proof. reflexivity. Qed.

Lemma np_sum_nonneg (l : list R) : Forall (fun r => 0 <= r) l -> 0 <= np_sum l.
Proof. unfold np_sum. induction 1; simpl; lra. Qed.

Lemma np_sum_map_nonneg {A : Type} (g : A -> R) (l : list A) :
  Forall (fun a => 0 <= g a) l -> 0 <= np_sum (map g l).
Proof. intros H. apply np_sum_nonneg. rewrite Forall_map. exact H. Qed.

Lemma np_sum_map_zero {A : Type} (g : A -> R) (l : list A) :
  (forall a, In a l -> g a = 0) -> np_sum (map g l) = 0.
Proof.
  induction l as [| a l IH]; intros H; simpl; [reflexivity|].
  rewrite IH by (intros b Hb; apply H; right; exact Hb).
  rewrite (H a) by (left; reflexivity). ring.
Qed.

(** A sum over the cells whose terms vanish away from cell [T]. *)
Lemma np_sum_combine_single {A : Type} (l : list A) (h : nat -> A -> R)
    (s T : nat) (c : A) :
  (s <= T)%nat -> nth_error l (T - s) = Some c ->
  (forall K c', K <> T -> h K c' = 0) ->
  np_sum (map (fun Kc => h (fst Kc) (snd Kc)) (combine (seq s (length l)) l)) = h T c.
Proof.
  revert s. induction l as [| a l IH]; intros s Hs Hn Hz.
  - destruct (T - s)%nat; discriminate.
  - simpl. destruct (Nat.eq_dec s T) as [-> | Hne].
    + rewrite Nat.sub_diag in Hn. simpl in Hn. inversion Hn; subst.
      rewrite np_sum_map_zero; [ring|].
      intros [K c'] Hin. simpl. apply Hz.
      destruct (combine_seq_In _ _ _ _ Hin). lia.
    + rewrite (Hz s a Hne), (IH (S s)); [ring | lia | | exact Hz].
      replace (T - s)%nat with (S (T - S s)) in Hn by lia. exact Hn.
Qed.

Lemma np_sum_enumerate_single {A : Type} (l : list A) (h : nat -> A -> R)
    (T : nat) (c : A) :
  nth_error l T = Some c ->
  (forall K c', K <> T -> h K c' = 0) ->
  np_sum (map (fun Kc => h (fst Kc) (snd Kc)) (enumerate l)) = h T c.
Proof.
  intros Hn Hz. apply np_sum_combine_single; [lia | | exact Hz].
  rewrite Nat.sub_0_r. exact Hn.
Qed.

Lemma dg0_basis_same (T : nat) : dg0_basis T T = 1.
Proof. unfold dg0_basis. rewrite Nat.eqb_refl. reflexivity. Qed.

Lemma dg0_basis_other (T K : nat) : K <> T -> dg0_basis T K = 0.
Proof. intros H. unfold dg0_basis. apply Nat.eqb_neq in H. rewrite H. reflexivity. Qed.

Lemma dg0_basis_nonneg (T K : nat) : 0 <= dg0_basis T K.
Proof. unfold dg0_basis. destruct (Nat.eqb K T); lra. Qed.

Lemma avg_basis_not_incident (T : nat) (E : InteriorFacet) :
  incident T E = false -> avg (dg0_basis T) E = 0.
Proof.
  unfold incident, avg, dg0_basis. intros H.
  apply orb_false_iff in H. destruct H as [-> ->]. lra.
Qed.

Lemma avg_basis_incident (T : nat) (E : InteriorFacet) :
  facet_plus E <> facet_minus E -> incident T E = true ->
  avg (dg0_basis T) E = / 2.
Proof.
  unfold incident, avg, dg0_basis. intros Hne H.
  destruct (Nat.eqb_spec (facet_plus E) T) as [Hp | Hp];
    destruct (Nat.eqb_spec (facet_minus E) T) as [Hm | Hm];
    try discriminate; try congruence; lra.
Qed.

Lemma nth_assemble_vector (m : Mesh) (F : Form) (T : nat) :
  (T < num_cells m)%nat -> nth T (assemble_vector m F) 0 = assemble_entry m F T.
Proof.
  intros H. unfold assemble_vector.
  rewrite (nth_indep _ 0 (assemble_entry m F O)) by (rewrite length_map, length_seq; exact H).
  rewrite map_nth, seq_nth by exact H. reflexivity.
Qed.

Lemma assemble_vector_length (m : Mesh) (F : Form) :
  length (assemble_vector m F) = num_cells m.
Proof. unfold assemble_vector. rewrite length_map, length_seq. reflexivity. Qed.

(** Assembling [w*dx] gives the areas of the cells. *)
Lemma cell_area_is_area (m : Mesh) (T : nat) (c : Cell) :
  nth_error (cells m) T = Some c -> cell_area m T = area c.
Proof.
  intros Hc. unfold cell_area.
  rewrite nth_assemble_vector by (apply nth_error_Some; unfold num_cells; congruence).
  unfold assemble_entry. simpl.
  rewrite (np_sum_enumerate_single (cells m)
             (fun K c' => integrate (cell_dx c') (fun _ => dg0_basis T K)) T c Hc).
  - rewrite np_sum_map_zero by (intros; apply integrate_zero).
    rewrite dg0_basis_same. unfold area. ring.
  - intros K c' HK. rewrite (dg0_basis_other T K HK). apply integrate_zero.
Qed.

(** Sum over the interior facets of a term carrying [avg(w)], for [w] the
    basis function of cell [T]: only the edges of [T] remain, with one half. *)
Lemma facet_sum_basis (T : nat) (W : InteriorFacet -> R)
    (J : InteriorFacet -> point -> R) (l : list InteriorFacet) :
  Forall (fun E => facet_plus E <> facet_minus E) l ->
  np_sum (map (fun E => integrate (facet_dS E)
                          (fun x => W E * avg (dg0_basis T) E * (J E x) ^ 2)) l)
  = np_sum (map (fun E => integrate (facet_dS E)
                            (fun x => / 2 * W E * (J E x) ^ 2))
                (filter (incident T) l)).
Proof.
  induction 1 as [| E l HE Hl IH]; [reflexivity|].
  cbn [map filter]. rewrite np_sum_cons, IH.
  destruct (incident T E) eqn:Hinc; cbn [map].
  - rewrite np_sum_cons. f_equal. apply integrate_ext. intros x.
    rewrite (avg_basis_incident T E HE Hinc). ring.
  - rewrite (integrate_ext _ _ (fun _ => 0)).
    + rewrite integrate_zero. ring.
    + intros x. rewrite (avg_basis_not_incident T E Hinc). ring.
Qed.

Section EstimatorFacts.
Context {lib : FEMLibrary}.

(** The entry of cell [T] in the assembled residual vector. *)
Lemma array_cell_res_entry (m : Mesh) (u : Function) (f : point -> R)
    (T : nat) (c : Cell) :
  nth_error (cells m) T = Some c -> two_sided m ->
  nth T (array_cell_res m u f) 0
  = integrate (cell_dx c) (fun x => 2 * area c * (div_grad u T x + f x) ^ 2)
    + np_sum (map (fun E => integrate (facet_dS E)
                              (fun x => / 2 * facet_weight m E * (jump (grad u) E x) ^ 2))
                  (filter (incident T) (interior_facets m))).
Proof.
  intros Hc H2. unfold array_cell_res.
  rewrite nth_assemble_vector by (apply nth_error_Some; unfold num_cells; congruence).
  unfold assemble_entry. cbn [residual form_dx form_dS]. f_equal.
  - rewrite (np_sum_enumerate_single (cells m)
               (fun K c' => integrate (cell_dx c')
                  (fun x => 2 * cell_area m K * dg0_basis T K * (div_grad u K x + f x) ^ 2))
               T c Hc).
    + apply integrate_ext. intros x.
      rewrite dg0_basis_same, (cell_area_is_area m T c Hc). ring.
    + intros K c' HK. rewrite (integrate_ext _ _ (fun _ => 0)); [apply integrate_zero|].
      intros x. rewrite (dg0_basis_other T K HK). ring.
  - apply (facet_sum_basis T (facet_weight m) (jump (grad u)) _ H2).
Qed.

Lemma array_cell_res_length (m : Mesh) (u : Function) (f : point -> R) :
  length (array_cell_res m u f) = num_cells m.
Proof. apply assemble_vector_length. Qed.

End EstimatorFacts.

Section IndicatorFacts.
Context {lib : FEMLibrary}.

(** For a field whose [div(grad(.))] vanishes on every cell, as it does for
    the degree-1 space the notebook solves in, the first pass's [-f] and the
    loop's [+f] assemble the same vector. *)
Lemma residual_first_pass_agrees (m : Mesh) (u : Function) (f : point -> R) :
  (forall K x, div_grad u K x = 0) ->
  assemble_vector m (residual_first_pass m u f) = array_cell_res m u f.
Proof.
  intros Hlap. unfold array_cell_res, assemble_vector.
  apply map_ext. intros T. unfold assemble_entry. f_equal.
  apply f_equal, map_ext. intros [K c].
  apply integrate_ext. intros x.
  cbn [residual residual_first_pass form_dx fst snd]. rewrite Hlap. ring.
Qed.

Lemma assemble_entry_nonneg (m : Mesh) (F : Form) (T : nat) :
  nonneg_measures m ->
  (forall K x, 0 <= form_dx F (dg0_basis T) K x) ->
  (forall E x, 0 <= form_dS F (dg0_basis T) E x) ->
  0 <= assemble_entry m F T.
Proof.
  intros [Hc Hf] Hdx HdS. unfold assemble_entry.
  apply Rplus_le_le_0_compat; apply np_sum_map_nonneg.
  - rewrite Forall_forall in Hc |- *. intros [K c] Hin.
    apply integrate_nonneg; [| apply Hdx].
    apply Hc. apply (in_combine_r _ _ _ _ Hin).
  - rewrite Forall_forall in Hf |- *. intros E Hin.
    apply integrate_nonneg; [apply Hf; exact Hin | apply HdS].
Qed.

Lemma cell_area_nonneg (m : Mesh) (K : nat) : nonneg_measures m -> 0 <= cell_area m K.
Proof.
  intros Hm. unfold cell_area.
  destruct (Nat.lt_ge_cases K (num_cells m)) as [Hlt | Hge].
  - rewrite nth_assemble_vector by exact Hlt.
    apply assemble_entry_nonneg; [exact Hm | |]; intros; simpl.
    + apply dg0_basis_nonneg.
    + lra.
  - rewrite nth_overflow by (rewrite assemble_vector_length; exact Hge). lra.
Qed.

Lemma pow2_nonneg (x : R) : 0 <= x ^ 2.
Proof. simpl. nra. Qed.

Lemma avg_nonneg (v : DG0) (E : InteriorFacet) : (forall K, 0 <= v K) -> 0 <= avg v E.
Proof.
  intros H. unfold avg.
  pose proof (H (facet_plus E)). pose proof (H (facet_minus E)). lra.
Qed.

Lemma array_cell_res_nonneg (m : Mesh) (u : Function) (f : point -> R) :
  nonneg_measures m -> Forall (fun r => 0 <= r) (array_cell_res m u f).
Proof.
  intros Hm. unfold array_cell_res, assemble_vector.
  rewrite Forall_map, Forall_forall. intros T _.
  apply assemble_entry_nonneg; [exact Hm | |]; intros; cbn [residual form_dx form_dS].
  - pose proof (cell_area_nonneg m K Hm). pose proof (dg0_basis_nonneg T K).
    pose proof (pow2_nonneg (div_grad u K x + f x)).
    apply Rmult_le_pos; [| assumption].
    apply Rmult_le_pos; [| assumption].
    apply Rmult_le_pos; [lra | assumption].
  - pose proof (pow2_nonneg (jump (grad u) E x)).
    apply Rmult_le_pos; [| assumption].
    apply Rmult_le_pos; [apply Rmult_le_pos|].
    + apply sqrt_pos.
    + apply avg_nonneg. intros K. apply sqrt_pos.
    + apply avg_nonneg. intros K. apply dg0_basis_nonneg.
Qed.

(** C1, as the code has it.  The entry of cell [T] in the vector assembled
    from the loop's residual form is [2*area(T) * (div(grad(u_h)) + f)^2]
    integrated over [T], plus, for each interior edge [E] of [T], one half of
    [sqrt(2) * avg(sqrt(area)) * jump(grad(u_h), n)^2] integrated over [E],
    where [area] is the vector assembled from [w*dx]. *)
Theorem residual_indicator (m : Mesh) (u : Function) (f : point -> R)
    (T : nat) (c : Cell) :
  nth_error (cells m) T = Some c -> two_sided m ->
  cell_area m T = area c
  /\ nth T (array_cell_res m u f) 0
     = integrate (cell_dx c) (fun x => 2 * area c * (div_grad u T x + f x) ^ 2)
       + np_sum (map (fun E => integrate (facet_dS E)
                        (fun x => / 2 * (sqrt 2 * avg (fun K => sqrt (cell_area m K)) E)
                                  * (jump (grad u) E x) ^ 2))
                     (filter (incident T) (interior_facets m))).
Proof.
  intros Hc H2. split.
  - apply cell_area_is_area. exact Hc.
  - apply (array_cell_res_entry m u f T c Hc H2).
Qed.

(** C8. The total residual, the sum of the assembled indicator vector, is
    non-negative on every mesh whose quadrature weights are non-negative. *)
Theorem tot_residual_nonneg (m : Mesh) (u : Function) (f : point -> R) :
  nonneg_measures m -> 0 <= np_sum (array_cell_res m u f).
Proof.
  intros Hm. apply np_sum_nonneg, array_cell_res_nonneg. exact Hm.
Qed.

End IndicatorFacts.

Lemma rect_mesh_two_sided : two_sided rect_mesh.
Proof. constructor; [simpl; discriminate | constructor]. Qed.

Lemma rect_mesh_nonneg : nonneg_measures rect_mesh.
Proof.
  split.
  - constructor; [| constructor; [| constructor]];
      (constructor; [simpl; lra | constructor]).
  - constructor; [| constructor].
    constructor; [simpl; apply sqrt_pos | constructor].
Qed.

Lemma f_source_pos (x : point) : 0 < f_source x.
Proof. unfold f_source. pose proof (exp_pos (- ((fst x - 75 / 100) ^ 2 + (snd x - 75 / 100) ^ 2) / (1 / 100))). lra. Qed.

(** C1 as stated fails: on the two-triangle rectangle, for the zero field and
    the notebook's source term, the assembled entry of cell 0 is
    [2 * f(x0)^2] while the stated formula gives [f(x0)^2], whatever weight
    is put on the facet term. *)
Lemma claimed_indicator_fails :
  ~ exists wE : InteriorFacet -> R,
      nth 0 (array_cell_res (lib := rest_library) rect_mesh (zero_function rect_mesh) f_source) 0
      = claimed_indicator (lib := rest_library) wE rect_mesh (zero_function rect_mesh)
          f_source 0 {| cell_edges := (0, 1, 2)%nat; cell_dx := [(1, (4 / 3, 1 / 3))] |}.
Proof.
  intros [wE H].
  rewrite (array_cell_res_entry (lib := rest_library) rect_mesh _ f_source 0 _
             eq_refl rect_mesh_two_sided) in H.
  unfold claimed_indicator, area, jump, dot in H.
  cbn [rect_mesh interior_facets filter incident facet_plus facet_minus Nat.eqb orb
       map np_sum fold_right integrate cell_dx facet_dS fst snd
       rest_library grad div_grad normal_plus normal_minus] in H.
  pose proof (f_source_pos (4 / 3, 1 / 3)) as HF.
  set (F := f_source (4 / 3, 1 / 3)) in *.
  simpl pow in H. nra.
Qed.

(** On this input the assembled entry is twice the square of the source. *)
Example array_cell_res_rect_mesh :
  nth 0 (array_cell_res (lib := rest_library) rect_mesh (zero_function rect_mesh) f_source) 0
  = 2 * f_source (4 / 3, 1 / 3) ^ 2.
Proof.
  rewrite (array_cell_res_entry (lib := rest_library) rect_mesh _ f_source 0 _
             eq_refl rect_mesh_two_sided).
  unfold area, jump, dot.
  cbn [rect_mesh interior_facets filter incident facet_plus facet_minus Nat.eqb orb
       map np_sum fold_right integrate cell_dx facet_dS fst snd
       rest_library grad div_grad normal_plus normal_minus].
  ring.
Qed.

(** ** The Dirichlet condition *)

Lemma isclose_refl (a : R) : isclose a a = true.
Proof.
  unfold isclose, atol, rtol. apply Rleb_true.
  replace (a - a) with 0 by ring. rewrite Rabs_R0.
  pose proof (Rabs_pos a). lra.
Qed.

Lemma bc_marker_on_boundary (x : point) : on_rectangle_boundary x -> bc_marker x = true.
Proof.
  intros [_ [H | [H | [H | H]]]]; unfold bc_marker; rewrite H, isclose_refl;
    rewrite ?orb_true_r; reflexivity.
Qed.

Lemma locate_dofs_topological_In (facets : list (nat * nat)) (v : nat) :
  In v (locate_dofs_topological facets)
  <-> exists fa, In fa facets /\ (v = fst fa \/ v = snd fa).
Proof.
  unfold locate_dofs_topological. rewrite nodup_In, in_flat_map.
  split; intros [fa [Hfa Hv]]; exists fa; (split; [exact Hfa|]).
  - simpl in Hv. destruct Hv as [<- | [<- | []]]; auto.
  - simpl. destruct Hv as [-> | ->]; auto.
Qed.

Lemma is_bc_dof_In (bc : DirichletBC) (i : nat) :
  is_bc_dof bc i = true <-> In i (bc_dofs bc).
Proof.
  unfold is_bc_dof. rewrite existsb_exists. split.
  - intros [j [Hj Heq]]. apply Nat.eqb_eq in Heq. subst. exact Hj.
  - intros H. exists i. split; [exact H | apply Nat.eqb_refl].
Qed.

(** A row of the identity picks one entry of the vector. *)
Lemma np_sum_delta (g : nat -> R) (i s n : nat) :
  (s <= i < s + n)%nat ->
  np_sum (map (fun j => (if Nat.eqb i j then 1 else 0) * g j) (seq s n)) = g i.
Proof.
  revert s. induction n as [| n IH]; intros s H; [lia|].
  cbn [seq map]. rewrite np_sum_cons.
  destruct (Nat.eqb_spec i s) as [-> | Hne].
  - rewrite np_sum_map_zero; [ring|].
    intros j Hj. apply in_seq in Hj.
    destruct (Nat.eqb_spec s j); [lia | ring].
  - rewrite IH by lia. ring.
Qed.

Lemma mat_vec_bc_row (bc : DirichletBC) (A : nat -> nat -> R) (u : list R) (n i : nat) :
  is_bc_dof bc i = true -> (i < n)%nat ->
  mat_vec n (bc_matrix bc A) u i = nth i u 0.
Proof.
  intros Hi Hn. unfold mat_vec, bc_matrix. rewrite Hi. cbn [orb].
  apply (np_sum_delta (fun j => nth j u 0)). lia.
Qed.

Section SolveFacts.
Context {lib : FEMLibrary}.

Lemma boundary_dofs_rectangle (m : Mesh) (v : nat) :
  triangulates_rectangle m ->
  (In v (boundary_dofs m bc_marker)
   <-> (v < length (geometry_x m))%nat /\ on_rectangle_boundary (vertex m v)).
Proof.
  intros [H1 H2]. unfold boundary_dofs.
  rewrite locate_dofs_topological_In. unfold locate_entities_boundary. split.
  - intros [fa [Hfa Hv]]. apply filter_In in Hfa. destruct Hfa as [Hfa _].
    destruct (H1 fa Hfa) as (Hl1 & Hl2 & Hb1 & Hb2).
    destruct Hv as [-> | ->]; split; assumption.
  - intros [Hv Hb]. destruct (H2 v Hv Hb) as [fa [Hfa Hends]].
    exists fa. split; [| exact Hends].
    apply filter_In. split; [exact Hfa|].
    destruct (H1 fa Hfa) as (_ & _ & Hb1 & Hb2).
    rewrite (bc_marker_on_boundary _ Hb1), (bc_marker_on_boundary _ Hb2). reflexivity.
Qed.

Lemma solve_length (m : Mesh) (f : point -> R) (marker : point -> bool) :
  solve_exact m f marker ->
  length (x_array (solve_poisson_homog_dirichlet m f marker)) = length (geometry_x m).
Proof. intros [Hlen _]. exact Hlen. Qed.

Lemma solve_zero_on_bc (m : Mesh) (f : point -> R) (marker : point -> bool) (v : nat) :
  solve_exact m f marker ->
  In v (boundary_dofs m marker) -> (v < length (geometry_x m))%nat ->
  nth v (x_array (solve_poisson_homog_dirichlet m f marker)) 0 = 0.
Proof.
  intros [_ Hex] Hin Hv. specialize (Hex v Hv). cbv zeta in Hex.
  assert (Hbc : is_bc_dof (homog_bc m marker) v = true)
    by (apply is_bc_dof_In; exact Hin).
  rewrite mat_vec_bc_row in Hex by assumption.
  unfold solve_poisson_homog_dirichlet. cbn [x_array]. rewrite Hex.
  unfold bc_rhs. rewrite Hbc. reflexivity.
Qed.

Lemma solve_entry_on_bc (m : Mesh) (f : point -> R) (marker : point -> bool) (v : nat) :
  solve_exact m f marker ->
  In v (boundary_dofs m marker) -> (v < length (geometry_x m))%nat ->
  nth_error (x_array (solve_poisson_homog_dirichlet m f marker)) v = Some 0.
Proof.
  intros Hex Hin Hv.
  rewrite <- (solve_zero_on_bc m f marker v Hex Hin Hv).
  apply nth_error_nth'. rewrite (solve_length m f marker Hex). exact Hv.
Qed.

(** C7. On a mesh of the rectangle the degrees of freedom selected through
    the marker are exactly the vertices on the four edges, and wherever the
    direct solve returned a solution of its system, with one entry per
    degree of freedom, the returned field has an entry at each of those
    degrees of freedom and that entry is exactly zero. *)
Theorem boundary_dofs_homogeneous (m : Mesh) (f : point -> R) :
  triangulates_rectangle m -> solve_exact m f bc_marker ->
  length (x_array (solve_poisson_homog_dirichlet m f bc_marker)) = length (geometry_x m)
  /\ (forall v, In v (boundary_dofs m bc_marker)
                <-> (v < length (geometry_x m))%nat /\ on_rectangle_boundary (vertex m v))
  /\ (forall v, In v (boundary_dofs m bc_marker) ->
                nth_error (x_array (solve_poisson_homog_dirichlet m f bc_marker)) v
                = Some 0).
Proof.
  intros Hm Hex. split; [apply solve_length; exact Hex|]. split.
  - intros v. apply boundary_dofs_rectangle. exact Hm.
  - intros v Hin. apply solve_entry_on_bc; [exact Hex | exact Hin |].
    apply (boundary_dofs_rectangle m v Hm). exact Hin.
Qed.

End SolveFacts.

(** ** The adaptive loop *)

Section LoopFacts.
Context {lib : FEMLibrary}.
Variable f : point -> R.

Lemma passes_succ (k : nat) (st : LoopState) :
  passes f (S k) st = loop_body f (passes f k st).
Proof.
  revert st. induction k as [| k IH]; intros st; [reflexivity|].
  change (passes f (S (S k)) st) with (passes f (S k) (loop_body f st)).
  rewrite IH. reflexivity.
Qed.

Lemma passes_iteration (k : nat) (st : LoopState) :
  iteration (passes f k st) = (k + iteration st)%nat.
Proof.
  induction k as [| k IH]; [reflexivity|].
  rewrite passes_succ. cbn [loop_body iteration]. rewrite IH. reflexivity.
Qed.

Lemma guard_true (st : LoopState) :
  Rltb (5 / 100) (tot_residual st) = true <-> 5 / 100 < tot_residual st.
Proof. apply Rltb_true. Qed.

Lemma guard_false (st : LoopState) :
  Rltb (5 / 100) (tot_residual st) = false <-> tot_residual st <= 5 / 100.
Proof. apply Rltb_false. Qed.

(** An exit happens at the first state whose residual is within the
    threshold. *)
Lemma while_loop_some (fuel : nat) (st fin : LoopState) :
  while_loop f fuel st = Some fin ->
  exists k, (k <= fuel)%nat /\ fin = passes f k st
            /\ tot_residual fin <= 5 / 100
            /\ forall j, (j < k)%nat -> 5 / 100 < tot_residual (passes f j st).
Proof.
  revert st. induction fuel as [| fuel IH]; intros st H; simpl in H.
  - destruct (Rltb (5 / 100) (tot_residual st)) eqn:Hg; [discriminate|].
    inversion H; subst. exists O.
    split; [lia|]. split; [reflexivity|]. split; [apply guard_false; exact Hg | lia].
  - destruct (Rltb (5 / 100) (tot_residual st)) eqn:Hg.
    + destruct (IH _ H) as (k & Hk & Hfin & Hres & Hbefore).
      exists (S k). split; [lia|]. split; [exact Hfin|]. split; [exact Hres|].
      intros [| j] Hj; [apply guard_true; exact Hg|].
      apply Hbefore. lia.
    + inversion H; subst. exists O.
      split; [lia|]. split; [reflexivity|]. split; [apply guard_false; exact Hg | lia].
Qed.

(** While every state met has a residual above the threshold the loop goes on. *)
Lemma while_loop_none (fuel : nat) (st : LoopState) :
  (forall j, (j <= fuel)%nat -> 5 / 100 < tot_residual (passes f j st)) ->
  while_loop f fuel st = None.
Proof.
  revert st. induction fuel as [| fuel IH]; intros st H; simpl.
  - rewrite (proj2 (guard_true st) (H O (Nat.le_refl _))). reflexivity.
  - rewrite (proj2 (guard_true st) (H O (Nat.le_0_l _))).
    apply IH. intros j Hj. apply (H (S j)). lia.
Qed.

(** A state within the threshold after [k] passes is reached with fuel [k]. *)
Lemma while_loop_reach (k : nat) (st : LoopState) :
  tot_residual (passes f k st) <= 5 / 100 ->
  exists fin, while_loop f k st = Some fin.
Proof.
  revert st. induction k as [| k IH]; intros st H; simpl.
  - rewrite (proj2 (guard_false st) H). eexists; reflexivity.
  - destruct (Rltb (5 / 100) (tot_residual st)); [apply IH; exact H | eexists; reflexivity].
Qed.

Lemma init_guard (m0 : Mesh) (u0 : Function) :
  Rltb (5 / 100) (tot_residual (init_state m0 u0)) = true.
Proof. apply Rltb_true. simpl. lra. Qed.

(** C2. The loop stops exactly when a computed total residual is within the
    threshold: a run that exits does so at the first pass whose total
    residual, the sum of the indicator vector of that pass, is at most
    [5e-2]; if every pass yields a total residual above [5e-2] no amount of
    fuel makes the loop return; and as soon as some pass yields a total
    residual within [5e-2] the loop returns. *)
Theorem while_loop_exit_condition (m0 : Mesh) (u0 : Function) :
  (forall k, tot_residual (passes f (S k) (init_state m0 u0))
             = np_sum (array_cell_res (msh (passes f k (init_state m0 u0)))
                                      (uh (passes f k (init_state m0 u0))) f))
  /\ (forall fuel fin, while_loop f fuel (init_state m0 u0) = Some fin ->
        tot_residual fin <= 5 / 100
        /\ exists k, fin = passes f (S k) (init_state m0 u0)
                     /\ forall j, (j <= k)%nat ->
                           5 / 100 < tot_residual (passes f j (init_state m0 u0)))
  /\ ((forall k, 5 / 100 < tot_residual (passes f (S k) (init_state m0 u0))) ->
      forall fuel, while_loop f fuel (init_state m0 u0) = None)
  /\ (forall k, tot_residual (passes f (S k) (init_state m0 u0)) <= 5 / 100 ->
      exists fuel fin, while_loop f fuel (init_state m0 u0) = Some fin).
Proof.
  split; [| split; [| split]].
  - intros k. rewrite passes_succ. reflexivity.
  - intros fuel fin H.
    destruct (while_loop_some _ _ _ H) as (k & _ & Hfin & Hres & Hbefore).
    split; [exact Hres|].
    destruct k as [| k].
    + exfalso. subst fin. simpl in Hres. lra.
    + exists k. split; [exact Hfin|]. intros j Hj. apply Hbefore. lia.
  - intros Hall fuel. apply while_loop_none.
    intros [| j] _; [simpl; lra | apply Hall].
  - intros k Hk. exists (S k). apply while_loop_reach. exact Hk.
Qed.

(** C9. The body runs at least once from every initial mesh: the
    accumulator starts at 1, above the threshold, so the first test of the
    guard succeeds whatever the residual of the initial mesh is.  That first
    pass estimates the initial field, marks, refines the initial mesh along
    the collected edges (a non-empty list when the mesh has a cell), solves
    again on the refined mesh and sets the counter to 1; when the residual
    of the initial mesh is already within the threshold the loop returns
    exactly that refined and re-solved state, and every state the loop
    returns descends from it. *)
Theorem loop_body_runs_once (m0 : Mesh) (u0 : Function) :
  (forall fuel, while_loop f (S fuel) (init_state m0 u0)
                = while_loop f fuel (loop_body f (init_state m0 u0)))
  /\ while_loop f O (init_state m0 u0) = None
  /\ (msh (loop_body f (init_state m0 u0))
       = refine m0 (collect_edges m0
                      (marked_cells (num_cells m0) (array_cell_res m0 u0 f)))
      /\ uh (loop_body f (init_state m0 u0))
         = solve_poisson_homog_dirichlet (msh (loop_body f (init_state m0 u0))) f bc_marker
      /\ tot_residual (loop_body f (init_state m0 u0)) = np_sum (array_cell_res m0 u0 f)
      /\ iteration (loop_body f (init_state m0 u0)) = 1%nat)
  /\ ((1 <= num_cells m0)%nat ->
      collect_edges m0 (marked_cells (num_cells m0) (array_cell_res m0 u0 f)) <> [])
  /\ (np_sum (array_cell_res m0 u0 f) <= 5 / 100 ->
      forall fuel, while_loop f (S fuel) (init_state m0 u0)
                   = Some (loop_body f (init_state m0 u0)))
  /\ (forall fuel fin, while_loop f fuel (init_state m0 u0) = Some fin ->
        exists k, fin = passes f k (loop_body f (init_state m0 u0))
                  /\ iteration fin = S k).
Proof.
  split; [| split; [| split; [| split; [| split]]]].
  - intros fuel. cbn [while_loop]. rewrite init_guard. reflexivity.
  - cbn [while_loop]. rewrite init_guard. reflexivity.
  - repeat split.
  - intros Hn.
    destruct (collect_edges_head m0 (array_cell_res m0 u0 f) Hn
                (array_cell_res_length _ _ _)) as (e & _ & He & _).
    intros Heq. rewrite Heq in He. exact He.
  - intros Hres fuel. cbn [while_loop]. rewrite init_guard.
    assert (Hg : Rltb (5 / 100) (tot_residual (loop_body f (init_state m0 u0))) = false)
      by (apply Rltb_false; exact Hres).
    destruct fuel; cbn [while_loop]; rewrite Hg; reflexivity.
  - intros fuel fin H.
    destruct (while_loop_some _ _ _ H) as (k & _ & Hfin & Hres & _).
    destruct k as [| k].
    + exfalso. subst fin. simpl in Hres. lra.
    + exists k. split; [exact Hfin|].
      rewrite Hfin, passes_iteration. simpl. lia.
Qed.

(** One pass refines: the mesh of the next state has more cells. *)
Lemma loop_body_grows (st : LoopState) :
  refine_splits lib -> (1 <= num_cells (msh st))%nat ->
  (num_cells (msh st) < num_cells (msh (loop_body f st)))%nat.
Proof.
  intros Hrefine Hn. cbn [loop_body msh].
  destruct (collect_edges_head (msh st) (array_cell_res (msh st) (uh st) f) Hn
              (array_cell_res_length _ _ _)) as (e & cell & He & Hcell).
  apply (Hrefine _ _ e cell He Hcell).
Qed.

Lemma passes_nonempty (m0 : Mesh) (u0 : Function) (k : nat) :
  refine_splits lib -> (1 <= num_cells m0)%nat ->
  (1 <= num_cells (msh (passes f k (init_state m0 u0))))%nat.
Proof.
  intros Hrefine Hn. induction k as [| k IH]; [exact Hn|].
  rewrite passes_succ.
  pose proof (loop_body_grows _ Hrefine IH). lia.
Qed.

(** C6. Given that bisecting an edge of the mesh adds cells, every pass of
    the loop strictly increases the number of cells, so the count never goes
    down from one iteration to a later one. *)
Theorem cell_count_increases (m0 : Mesh) (u0 : Function) :
  refine_splits lib -> (1 <= num_cells m0)%nat ->
  (forall k, (num_cells (msh (passes f k (init_state m0 u0)))
              < num_cells (msh (passes f (S k) (init_state m0 u0))))%nat)
  /\ (forall j k, (j <= k)%nat ->
        (num_cells (msh (passes f j (init_state m0 u0)))
         <= num_cells (msh (passes f k (init_state m0 u0))))%nat).
Proof.
  intros Hrefine Hn.
  assert (Hstep : forall k, (num_cells (msh (passes f k (init_state m0 u0)))
                             < num_cells (msh (passes f (S k) (init_state m0 u0))))%nat).
  { intros k. rewrite passes_succ.
    apply loop_body_grows; [exact Hrefine|].
    apply passes_nonempty; assumption. }
  split; [exact Hstep|].
  intros j k Hjk. induction Hjk as [| k Hjk IH]; [lia|].
  pose proof (Hstep k). lia.
Qed.

End LoopFacts.

(** ** The statements on concrete inputs *)

Lemma flat_map_length_gt {A B : Type} (g : A -> list B) (l : list A) (a : A) :
  (forall x, 1 <= length (g x))%nat -> In a l -> (2 <= length (g a))%nat ->
  (length l < length (flat_map g l))%nat.
Proof.
  intros Hall Hin H2.
  assert (Hge : forall l', (length l' <= length (flat_map g l'))%nat).
  { induction l' as [| x l' IH]; simpl; [lia|].
    rewrite length_app. pose proof (Hall x). lia. }
  induction l as [| x l IH]; [destruct Hin|].
  simpl. rewrite length_app. destruct Hin as [-> | Hin].
  - pose proof (Hge l). lia.
  - pose proof (Hall x). specialize (IH Hin). lia.
Qed.

(** The stand-in bisection honours the contract of refinement. *)
Lemma bisect_marked_splits : refine_splits rest_library.
Proof.
  intros m edges e cell He Hcell. cbn [refine rest_library].
  unfold c_to_e_links in Hcell.
  destruct (nth_error (cells m) cell) as [c |] eqn:Hc; [| destruct Hcell].
  apply nth_error_In in Hc.
  assert (Hmark : has_marked_edge edges c = true).
  { unfold has_marked_edge. destruct (cell_edges c) as [[e0 e1] e2].
    apply existsb_exists. exists e. split; [exact He|].
    destruct Hcell as [<- | [<- | [<- | []]]]; rewrite Nat.eqb_refl;
      rewrite ?orb_true_r; reflexivity. }
  unfold num_cells, bisect_marked. cbn [cells].
  apply (flat_map_length_gt _ _ c); [| exact Hc |].
  - intros x. destruct (has_marked_edge edges x); simpl; lia.
  - rewrite Hmark. simpl. lia.
Qed.

Lemma rect_mesh_triangulates : triangulates_rectangle rect_mesh.
Proof.
  split.
  - intros fa Hfa. simpl in Hfa.
    destruct Hfa as [<- | [<- | [<- | [<- | []]]]]; unfold on_rectangle_boundary;
      simpl; repeat split; try lia; lra.
  - intros v Hv _. simpl in Hv.
    destruct v as [| [| [| [| v]]]]; [| | | | lia].
    + exists (0, 1)%nat. split; [left; reflexivity | left; reflexivity].
    + exists (1, 2)%nat. split; [right; left; reflexivity | left; reflexivity].
    + exists (2, 3)%nat. split; [right; right; left; reflexivity | left; reflexivity].
    + exists (3, 0)%nat. split; [right; right; right; left; reflexivity | left; reflexivity].
Qed.

Lemma rest_library_solves (m : Mesh) (f : point -> R) (marker : point -> bool) :
  solve_exact (lib := rest_library) m f marker.
Proof.
  split; [apply repeat_length|].
  intros i Hi. unfold mat_vec, bc_rhs. cbn [lu_solve assemble_rhs rest_library homog_bc bc_value].
  rewrite np_sum_map_zero by (intros j _; rewrite nth_repeat; ring).
  destruct (is_bc_dof _ i); [reflexivity|].
  rewrite np_sum_map_zero by (intros j _; ring). ring.
Qed.

(** With a vanishing source the library at rest has no residual. *)
Lemma rest_residual_zero (u : Function) :
  np_sum (array_cell_res (lib := rest_library) rect_mesh u (fun _ => 0)) = 0.
Proof.
  unfold array_cell_res, assemble_vector, assemble_entry, enumerate.
  cbn [rect_mesh num_cells cells interior_facets length seq combine map np_sum fold_right
       integrate cell_dx facet_dS fst snd residual form_dx form_dS
       rest_library grad div_grad].
  unfold jump, dot. cbn [fst snd]. ring.
Qed.

Lemma residual_indicator_witness :
  cell_area rect_mesh 0%nat
  = area {| cell_edges := (0, 1, 2)%nat; cell_dx := [(1, (4 / 3, 1 / 3))] |}.
Proof.
  exact (proj1 (residual_indicator (lib := rest_library) rect_mesh (zero_function rect_mesh)
                  f_source 0 _ eq_refl rect_mesh_two_sided)).
Defined.

Lemma while_loop_exit_condition_witness :
  exists fuel fin,
    while_loop (lib := rest_library) (fun _ => 0) fuel
      (init_state rect_mesh (zero_function rect_mesh)) = Some fin.
Proof.
  apply (proj2 (proj2 (proj2 (while_loop_exit_condition (lib := rest_library) (fun _ => 0)
                                rect_mesh (zero_function rect_mesh)))) O).
  cbn [passes loop_body tot_residual init_state msh uh].
  rewrite rest_residual_zero. lra.
Defined.

Lemma loop_body_runs_once_witness :
  while_loop (lib := rest_library) (fun _ => 0) 1
    (init_state rect_mesh (zero_function rect_mesh))
  = Some (loop_body (lib := rest_library) (fun _ => 0)
            (init_state rect_mesh (zero_function rect_mesh))).
Proof.
  apply (proj1 (proj2 (proj2 (proj2 (proj2
           (loop_body_runs_once (lib := rest_library) (fun _ => 0)
              rect_mesh (zero_function rect_mesh))))))).
  rewrite rest_residual_zero. lra.
Defined.

Lemma marked_cells_count_witness :
  length (marked_cells 128 (repeat 0 128)) = 7%nat.
Proof.
  exact (proj1 (marked_cells_count 128 (repeat 0 128) eq_refl eq_refl)).
Defined.

Lemma cell_count_increases_witness :
  (num_cells rect_mesh
   < num_cells (msh (passes (lib := rest_library) f_source 1
                       (init_state rect_mesh (zero_function rect_mesh)))))%nat.
Proof.
  exact (proj1 (cell_count_increases (lib := rest_library) f_source rect_mesh
                  (zero_function rect_mesh) bisect_marked_splits (le_S 1 1 (le_n 1))) O).
Defined.

Lemma fan_mesh_triangulates : triangulates_rectangle fan_mesh.
Proof.
  split.
  - intros fa Hfa. simpl in Hfa.
    destruct Hfa as [<- | [<- | [<- | [<- | []]]]]; unfold on_rectangle_boundary;
      simpl; repeat split; try lia; lra.
  - intros v Hv Hb. simpl in Hv.
    destruct v as [| [| [| [| [| v]]]]]; [| | | | | lia].
    + exists (0, 1)%nat. split; [left; reflexivity | left; reflexivity].
    + exists (1, 2)%nat. split; [right; left; reflexivity | left; reflexivity].
    + exists (2, 3)%nat. split; [right; right; left; reflexivity | left; reflexivity].
    + exists (3, 0)%nat. split; [right; right; right; left; reflexivity | left; reflexivity].
    + exfalso. unfold on_rectangle_boundary in Hb. simpl in Hb. lra.
Qed.

Lemma fan_mesh_centre_is_free : ~ In 4%nat (boundary_dofs fan_mesh bc_marker).
Proof.
  unfold boundary_dofs. rewrite locate_dofs_topological_In.
  intros [fa [Hfa Hv]]. unfold locate_entities_boundary in Hfa.
  apply filter_In in Hfa. destruct Hfa as [Hfa _]. simpl in Hfa.
  destruct Hfa as [<- | [<- | [<- | [<- | []]]]]; simpl in Hv; lia.
Qed.

(** On the fan mesh the four corners are constrained and the centre is free. *)
Lemma fan_mesh_bc_dofs (j : nat) :
  (j < 5)%nat ->
  is_bc_dof (homog_bc fan_mesh bc_marker) j = (j <? 4)%nat.
Proof.
  intros Hj. destruct (Nat.ltb_spec j 4) as [Hlt | Hge].
  - apply is_bc_dof_In. cbn [homog_bc bc_dofs].
    apply (boundary_dofs_rectangle fan_mesh j fan_mesh_triangulates).
    split; [simpl; lia|].
    destruct j as [| [| [| [| j]]]]; [| | | | lia];
      unfold on_rectangle_boundary; simpl; lra.
  - assert (j = 4%nat) as -> by lia.
    destruct (is_bc_dof (homog_bc fan_mesh bc_marker) 4) eqn:Hb; [| reflexivity].
    apply is_bc_dof_In in Hb. destruct (fan_mesh_centre_is_free Hb).
Qed.

Lemma diag_solve_nth (n : nat) (A : nat -> nat -> R) (b : nat -> R) (i : nat) :
  (i < n)%nat -> nth i (diag_solve n A b) 0 = b i / A i i.
Proof.
  intros Hi. unfold diag_solve.
  rewrite (nth_indep _ 0 ((fun i => b i / A i i) O))
    by (rewrite length_map, length_seq; exact Hi).
  rewrite (map_nth (fun i => b i / A i i)), seq_nth by exact Hi. reflexivity.
Qed.

(** The diagonal solve is exact on the constrained system of the fan mesh. *)
Lemma fan_library_solves (f : point -> R) :
  solve_exact (lib := fan_library) fan_mesh f bc_marker.
Proof.
  split; [cbn [lu_solve fan_library]; unfold diag_solve;
          rewrite length_map, length_seq; reflexivity|].
  intros i Hi. change (length (geometry_x fan_mesh)) with 5%nat in *.
  cbn [lu_solve fan_library].
  set (bc := homog_bc fan_mesh bc_marker).
  set (A := assemble_matrix (FEMLibrary := fan_library) fan_mesh).
  set (b := bc_rhs bc A (assemble_rhs (FEMLibrary := fan_library) fan_mesh f)).
  destruct (Nat.ltb_spec i 4) as [Hlt | Hge].
  - assert (Hbi : is_bc_dof bc i = true)
      by (unfold bc; rewrite fan_mesh_bc_dofs by lia; apply Nat.ltb_lt; exact Hlt).
    rewrite mat_vec_bc_row by assumption.
    rewrite diag_solve_nth by exact Hi.
    unfold bc_matrix. rewrite Hbi, Nat.eqb_refl. cbn [orb]. field.
  - assert (i = 4%nat) as -> by lia.
    unfold mat_vec. cbn [seq map]. rewrite !np_sum_cons.
    rewrite (diag_solve_nth 5 _ _ 4) by lia.
    unfold bc_matrix. unfold bc. rewrite !fan_mesh_bc_dofs by lia.
    cbn [Nat.ltb Nat.leb Nat.eqb orb np_sum fold_right].
    unfold A. cbn [assemble_matrix fan_library fan_stiffness nth].
    field.
Qed.

(** At the centre of the fan mesh the solution is the load of the centre
    divided by the diagonal entry 5; it is positive for the notebook's
    source. *)
Example fan_solution_centre :
  nth_error (x_array (solve_poisson_homog_dirichlet (lib := fan_library)
                        fan_mesh f_source bc_marker)) 4
  = Some ((f_source (1, 1 / 6) + f_source (5 / 3, 1 / 2)
           + f_source (1, 5 / 6) + f_source (1 / 3, 1 / 2)) / 30)
  /\ 0 < (f_source (1, 1 / 6) + f_source (5 / 3, 1 / 2)
          + f_source (1, 5 / 6) + f_source (1 / 3, 1 / 2)) / 30.
Proof.
  split.
  - unfold solve_poisson_homog_dirichlet. cbn [x_array lu_solve fan_library].
    change (length (geometry_x fan_mesh)) with 5%nat.
    rewrite (nth_error_nth' _ 0) by (unfold diag_solve; rewrite length_map, length_seq; lia).
    rewrite diag_solve_nth by lia. f_equal.
    unfold bc_matrix, bc_rhs. rewrite !fan_mesh_bc_dofs by lia.
    cbn [Nat.ltb Nat.leb Nat.eqb orb].
    rewrite np_sum_map_zero by (intros; cbn [homog_bc bc_value]; ring).
    cbn [assemble_rhs assemble_matrix fan_library fan_stiffness nth fan_mesh cells].
    unfold enumerate, fan_basis.
    cbn [fan_cells_of_vertex nth length seq combine map np_sum fold_right integrate
         cell_dx fst snd existsb Nat.eqb orb].
    field.
  - pose proof (f_source_pos (1, 1 / 6)). pose proof (f_source_pos (5 / 3, 1 / 2)).
    pose proof (f_source_pos (1, 5 / 6)). pose proof (f_source_pos (1 / 3, 1 / 2)).
    lra.
Qed.

Lemma boundary_dofs_homogeneous_witness :
  nth_error (x_array (solve_poisson_homog_dirichlet (lib := fan_library)
                        fan_mesh f_source bc_marker)) 0
  = Some 0.
Proof.
  destruct (boundary_dofs_homogeneous (lib := fan_library) fan_mesh f_source
              fan_mesh_triangulates (fan_library_solves f_source))
    as (_ & Hiff & Hzero).
  apply Hzero. apply Hiff.
  split; [simpl; lia | unfold on_rectangle_boundary; simpl; lra].
Defined.

Lemma tot_residual_nonneg_witness :
  0 <= np_sum (array_cell_res (lib := rest_library) rect_mesh
                 (zero_function rect_mesh) f_source).
Proof.
  exact (tot_residual_nonneg (lib := rest_library) rect_mesh (zero_function rect_mesh)
           f_source rect_mesh_nonneg).
Defined.

Lemma marked_and_edges_nonempty_witness :
  collect_edges rect_mesh (marked_cells (num_cells rect_mesh) [0; 0]) <> [].
Proof.
  exact (proj2 (proj2 (marked_and_edges_nonempty rect_mesh [0; 0]
                         (le_S 1 1 (le_n 1)) eq_refl))).
Defined.

(* ================================================================== *)
(** * Part III: further properties of the code *)
(* ================================================================== *)

(** ** What is marked *)

Lemma firstn_NoDup {A : Type} (n : nat) (l : list A) : NoDup l -> NoDup (firstn n l).
Proof.
  intros H. rewrite <- (firstn_skipn n l) in H.
  apply NoDup_app_remove_r in H. exact H.
Qed.

Lemma StronglySorted_app_cross {A : Type} (R : A -> A -> Prop) (l1 l2 : list A) :
  StronglySorted R (l1 ++ l2) -> forall a b, In a l1 -> In b l2 -> R a b.
Proof.
  induction l1 as [| x l1 IH]; intros Hs a b Ha Hb; [destruct Ha|].
  simpl in Hs. inversion Hs as [| ? ? Hs' Hx]; subst.
  destruct Ha as [-> | Ha].
  - rewrite Forall_forall in Hx. apply Hx. apply in_or_app. right. exact Hb.
  - apply IH; assumption.
Qed.

Lemma cell_ord_by_res_sorted (res : list R) :
  StronglySorted (ranks_before res) (cell_ord_by_res res).
Proof.
  pose proof (cell_ord_by_res_gen_sorted Rltb res 0 Rltb_swo) as Hs.
  revert Hs. apply StronglySorted_weaken.
  intros i j _ _ [H | [H Hij]].
  - left. apply Rltb_true. exact H.
  - apply Rltb_false in H. unfold ranks_before.
    destruct (Rlt_dec (nth j res 0) (nth i res 0)); [left; assumption|].
    right. split; [lra | exact Hij].
Qed.

(** X1. The marked cells are pairwise distinct cells of the mesh: no cell is
    marked twice and every marked index is a valid cell index. *)
Theorem marked_cells_distinct (n : nat) (res : list R) :
  NoDup (marked_cells n res)
  /\ Forall (fun cell => (cell < length res)%nat) (marked_cells n res).
Proof.
  split.
  - unfold marked_cells. apply firstn_NoDup.
    apply (Permutation_NoDup (Permutation_sym (cell_ord_by_res_gen_perm Rltb res))).
    apply seq_NoDup.
  - rewrite Forall_forall. intros cell. apply marked_cells_in_range.
Qed.

(** X2. The marked cells carry the largest indicators: no cell left unmarked
    has an indicator larger than that of a marked cell. *)
Theorem marked_cells_largest (n : nat) (res : list R) (i j : nat) :
  In i (marked_cells n res) -> (j < length res)%nat -> ~ In j (marked_cells n res) ->
  nth j res 0 <= nth i res 0.
Proof.
  unfold marked_cells. intros Hi Hj Hnj.
  set (k := num_cells_to_refine n) in *.
  assert (Hin : In j (cell_ord_by_res res)) by (apply cell_ord_by_res_gen_In; exact Hj).
  rewrite <- (firstn_skipn k (cell_ord_by_res res)) in Hin.
  apply in_app_or in Hin. destruct Hin as [Hin | Hin]; [contradiction|].
  pose proof (cell_ord_by_res_sorted res) as Hs.
  rewrite <- (firstn_skipn k (cell_ord_by_res res)) in Hs.
  destruct (StronglySorted_app_cross _ _ _ Hs i j Hi Hin) as [Hlt | [Heq _]]; lra.
Qed.

(** ** What is passed to refinement *)

Lemma flat_map_length_const {A B : Type} (g : A -> list B) (l : list A) (c : nat) :
  Forall (fun a => length (g a) = c) l -> length (flat_map g l) = (c * length l)%nat.
Proof.
  induction 1 as [| a l Ha Hl IH]; simpl; [lia|].
  rewrite length_app, IH, Ha. lia.
Qed.

(** X3. In a pass of the loop the edge list has three entries for each
    marked cell, [3 * ceil(0.05 * num_cells)] in all, and it holds exactly
    the edges found in the connectivity rows of the marked cells. *)
Theorem collect_edges_of_marked (m : Mesh) (res : list R) :
  (Z.of_nat (num_cells m) < 2 ^ 53)%Z -> length res = num_cells m ->
  length (collect_edges m (marked_cells (num_cells m) res))
  = (3 * ((num_cells m + 19) / 20))%nat
  /\ forall e, In e (collect_edges m (marked_cells (num_cells m) res))
               <-> exists cell, In cell (marked_cells (num_cells m) res)
                                /\ In e (c_to_e_links m cell).
Proof.
  intros Hn Hlen. rewrite collect_edges_flat_map. split.
  - rewrite (flat_map_length_const _ _ 3).
    + rewrite (marked_cells_length _ res Hn Hlen). reflexivity.
    + rewrite Forall_forall. intros cell Hc. apply c_to_e_links_length.
      rewrite <- Hlen. apply (marked_cells_in_range _ _ _ Hc).
  - intros e. apply in_flat_map.
Qed.

(** ** The double product [0.05*num_cells] *)

(** X4. For a cell count that is a multiple of 20 the double product
    [0.05*num_cells] is exactly the integer [num_cells/20]: the excess of
    the double [0.05] over one twentieth is rounded away, so [np.ceil] has
    nothing to round up. *)
Theorem fl_mul_005_multiple_of_20 (k : Z) :
  (0 <= 20 * k < 2 ^ 53)%Z ->
  Binary64.fl_mul_005 (20 * k) = (k * 2 ^ 56)%Z.
Proof.
  intros Hk. unfold Binary64.fl_mul_005.
  rewrite (Binary64Facts.float_of_int_exact (20 * k)) by exact Hk.
  destruct (Z.lt_ge_cases (Binary64.c005 * (20 * k)) (2 ^ 53)) as [Hsm | Hbig].
  - assert (k = 0%Z) as -> by (unfold Binary64.c005 in Hsm; lia).
    reflexivity.
  - destruct (Binary64Facts.rne_spec (Binary64.c005 * (20 * k)))
      as (s & q & r & Hs & Hp & Hr & Hq & Hround).
    { split; [exact Hbig | unfold Binary64.c005; lia]. }
    set (S := (2 ^ s)%Z) in *. set (H := (2 ^ (s - 1))%Z) in *.
    set (T := (2 ^ (56 - s))%Z).
    assert (HS : S = (2 * H)%Z).
    { unfold S, H. replace s with (1 + (s - 1))%Z at 1 by lia.
      rewrite Z.pow_add_r by lia. reflexivity. }
    assert (HH : (0 < H)%Z) by (unfold H; apply Z.pow_pos_nonneg; lia).
    assert (HB : (2 ^ 56 = T * S)%Z).
    { unfold T, S. rewrite <- Z.pow_add_r by lia. f_equal. lia. }
    assert (Hpk : (Binary64.c005 * (20 * k) = k * 2 ^ 56 + 4 * k)%Z)
      by (unfold Binary64.c005; lia).
    assert (H8k : (8 * k < S)%Z).
    { assert ((q + 1) * S <= 2 ^ 53 * S)%Z by (apply Z.mul_le_mono_nonneg_r; lia).
      lia. }
    assert (Huniq : q = (k * T)%Z /\ r = (4 * k)%Z).
    { apply (Z.div_mod_unique S); [lia | lia |].
      rewrite (Z.mul_comm S q), (Z.mul_comm S (k * T)), <- Hp, Hpk, HB. ring. }
    destruct Huniq as [Hqk Hrk].
    destruct Hround as [[-> _] | [_ Hge]]; [| lia].
    rewrite Hqk, <- Z.mul_assoc, <- HB. reflexivity.
Qed.

(** ** The indicator vector as a whole *)

Lemma np_sum_app (l1 l2 : list R) : np_sum (l1 ++ l2) = np_sum l1 + np_sum l2.
Proof.
  induction l1 as [| a l1 IH]; simpl; [ring|].
  fold (np_sum (l1 ++ l2)). fold (np_sum l1). rewrite IH. ring.
Qed.

Lemma np_sum_map_plus {A : Type} (g h : A -> R) (l : list A) :
  np_sum (map (fun a => g a + h a) l) = np_sum (map g l) + np_sum (map h l).
Proof.
  induction l as [| a l IH]; cbn [map]; rewrite ?np_sum_cons; [simpl; ring|].
  rewrite IH. ring.
Qed.

Lemma np_sum_map_scal {A : Type} (c : R) (g : A -> R) (l : list A) :
  np_sum (map (fun a => g a * c) l) = np_sum (map g l) * c.
Proof.
  induction l as [| a l IH]; cbn [map]; rewrite ?np_sum_cons; [simpl; ring|].
  rewrite IH. ring.
Qed.

Lemma np_sum_map_ext {A : Type} (g h : A -> R) (l : list A) :
  (forall a, In a l -> g a = h a) -> np_sum (map g l) = np_sum (map h l).
Proof.
  intros H. f_equal. apply map_ext_in. exact H.
Qed.

(** Exchange of two finite sums. *)
Lemma np_sum_exchange {A B : Type} (g : A -> B -> R) (la : list A) (lb : list B) :
  np_sum (map (fun a => np_sum (map (g a) lb)) la)
  = np_sum (map (fun b => np_sum (map (fun a => g a b) la)) lb).
Proof.
  induction la as [| a la IH]; cbn [map].
  - rewrite np_sum_map_zero; [reflexivity | intros; reflexivity].
  - rewrite np_sum_cons, IH, <- np_sum_map_plus.
    apply np_sum_map_ext. intros b _. cbn [map]. rewrite np_sum_cons. reflexivity.
Qed.

Lemma nth_le_np_sum (l : list R) (T : nat) :
  Forall (fun r => 0 <= r) l -> nth T l 0 <= np_sum l.
Proof.
  intros H. revert T. induction H as [| a l Ha Hl IH]; intros T.
  - destruct T; simpl; lra.
  - rewrite np_sum_cons. pose proof (np_sum_nonneg l Hl).
    destruct T as [| T]; simpl; [lra|]. specialize (IH T). lra.
Qed.

Lemma integrate_scal (q : rule) (c : R) (g : point -> R) :
  integrate q (fun x => c * g x) = c * integrate q g.
Proof.
  induction q as [| wx q IH]; simpl; [ring|].
  fold (integrate q (fun x => c * g x)). fold (integrate q g). rewrite IH. ring.
Qed.

(** The basis functions of the piecewise-constant space sum to one. *)
Lemma dg0_basis_partition (n K : nat) :
  (K < n)%nat -> np_sum (map (fun T => dg0_basis T K) (seq 0 n)) = 1.
Proof.
  intros HK.
  rewrite <- (np_sum_delta (fun _ => 1) K 0 n) by lia.
  apply np_sum_map_ext. intros T _. unfold dg0_basis. ring.
Qed.

Lemma avg_basis_partition (n : nat) (E : InteriorFacet) :
  (facet_plus E < n)%nat -> (facet_minus E < n)%nat ->
  np_sum (map (fun T => avg (dg0_basis T) E) (seq 0 n)) = 1.
Proof.
  intros Hp Hm. unfold avg.
  rewrite (np_sum_map_ext _ (fun T => (dg0_basis T (facet_plus E)
                                       + dg0_basis T (facet_minus E)) * / 2))
    by (intros; reflexivity).
  rewrite np_sum_map_scal, np_sum_map_plus, !dg0_basis_partition by assumption.
  lra.
Qed.

(** A sum over cell indices read as a sum over the cells. *)
Lemma np_sum_seq_combine {A : Type} (l : list A) (h : nat -> A -> R) (g : nat -> R)
    (s : nat) :
  (forall T c, nth_error l T = Some c -> g (s + T)%nat = h (s + T)%nat c) ->
  np_sum (map g (seq s (length l)))
  = np_sum (map (fun Kc => h (fst Kc) (snd Kc)) (combine (seq s (length l)) l)).
Proof.
  revert s. induction l as [| a l IH]; intros s H; [reflexivity|].
  cbn [length seq combine map fst snd]. rewrite !np_sum_cons.
  rewrite (IH (S s)).
  - pose proof (H O a eq_refl) as H0. rewrite Nat.add_0_r in H0. rewrite H0. reflexivity.
  - intros T c Hc. replace (S s + T)%nat with (s + S T)%nat by lia.
    apply H. exact Hc.
Qed.

Section VectorFacts.
Context {lib : FEMLibrary}.

(** X5. Each per-cell indicator lies between 0 and the total residual, on
    every mesh with non-negative quadrature weights. *)
Theorem indicator_between_zero_and_total (m : Mesh) (u : Function) (f : point -> R) :
  nonneg_measures m ->
  Forall (fun r => 0 <= r <= np_sum (array_cell_res m u f)) (array_cell_res m u f).
Proof.
  intros Hm. pose proof (array_cell_res_nonneg m u f Hm) as Hall.
  rewrite Forall_forall in Hall |- *. intros r Hr.
  split; [apply Hall; exact Hr|].
  destruct (In_nth _ _ 0 Hr) as (T & _ & <-).
  apply nth_le_np_sum. rewrite Forall_forall. exact Hall.
Qed.

(** The cell part of the entries, summed over all cells. *)
Lemma cell_part_total (m : Mesh) (u : Function) (f : point -> R) :
  np_sum (map (fun T =>
     np_sum (map (fun Kc => integrate (cell_dx (snd Kc))
                    (form_dx (residual m u f) (dg0_basis T) (fst Kc)))
                 (enumerate (cells m))))
     (seq 0 (num_cells m)))
  = np_sum (map (fun Kc => integrate (cell_dx (snd Kc))
                   (fun x => 2 * area (snd Kc) * (div_grad u (fst Kc) x + f x) ^ 2))
                (enumerate (cells m))).
Proof.
  unfold num_cells, enumerate.
  apply (np_sum_seq_combine (cells m)
           (fun K c => integrate (cell_dx c)
                         (fun x => 2 * area c * (div_grad u K x + f x) ^ 2))).
  intros T c Hc. cbn [Nat.add residual form_dx].
  rewrite (np_sum_enumerate_single (cells m)
             (fun K c' => integrate (cell_dx c')
                (fun x => 2 * cell_area m K * dg0_basis T K * (div_grad u K x + f x) ^ 2))
             T c Hc).
  - apply integrate_ext. intros x.
    rewrite dg0_basis_same, (cell_area_is_area m T c Hc). ring.
  - intros K c' HK. rewrite (integrate_ext _ _ (fun _ => 0)); [apply integrate_zero|].
    intros x. rewrite (dg0_basis_other T K HK). ring.
Qed.

(** The facet part of the entries, summed over all cells. *)
Lemma facet_part_total (m : Mesh) (u : Function) (f : point -> R) :
  sides_in_range m ->
  np_sum (map (fun T =>
     np_sum (map (fun E => integrate (facet_dS E)
                    (form_dS (residual m u f) (dg0_basis T) E))
                 (interior_facets m)))
     (seq 0 (num_cells m)))
  = np_sum (map (fun E => integrate (facet_dS E)
                   (fun x => facet_weight m E * (jump (grad u) E x) ^ 2))
                (interior_facets m)).
Proof.
  intros Hr.
  rewrite (np_sum_exchange
             (fun T E => integrate (facet_dS E) (form_dS (residual m u f) (dg0_basis T) E))).
  apply np_sum_map_ext. intros E HE.
  unfold sides_in_range in Hr. rewrite Forall_forall in Hr.
  destruct (Hr E HE) as [Hp Hm].
  rewrite (np_sum_map_ext _
             (fun T => avg (dg0_basis T) E
                       * integrate (facet_dS E)
                           (fun x => facet_weight m E * (jump (grad u) E x) ^ 2))).
  - rewrite np_sum_map_scal, (avg_basis_partition _ E Hp Hm). ring.
  - intros T _. rewrite <- integrate_scal. apply integrate_ext. intros x.
    cbn [residual form_dS]. unfold facet_weight. ring.
Qed.

(** X6. The total residual is the sum over the cells of
    [2*area * (div(grad(u_h)) + f)^2] integrated over the cell plus the sum
    over the interior facets of [sqrt(2)*avg(sqrt(area)) * jump^2] integrated
    over the facet: the two halves of a facet term given to the adjacent
    cells add up to the whole term, counted once. *)
Theorem tot_residual_decomposition (m : Mesh) (u : Function) (f : point -> R) :
  sides_in_range m ->
  np_sum (array_cell_res m u f)
  = np_sum (map (fun Kc => integrate (cell_dx (snd Kc))
                   (fun x => 2 * area (snd Kc) * (div_grad u (fst Kc) x + f x) ^ 2))
                (enumerate (cells m)))
    + np_sum (map (fun E => integrate (facet_dS E)
                     (fun x => sqrt 2 * avg (fun K => sqrt (cell_area m K)) E
                               * (jump (grad u) E x) ^ 2))
                  (interior_facets m)).
Proof.
  intros Hr. unfold array_cell_res, assemble_vector.
  rewrite (np_sum_map_ext (assemble_entry m (residual m u f))
             (fun T =>
                np_sum (map (fun Kc => integrate (cell_dx (snd Kc))
                               (form_dx (residual m u f) (dg0_basis T) (fst Kc)))
                            (enumerate (cells m)))
                + np_sum (map (fun E => integrate (facet_dS E)
                                 (form_dS (residual m u f) (dg0_basis T) E))
                              (interior_facets m))))
    by (intros; reflexivity).
  rewrite np_sum_map_plus, cell_part_total, (facet_part_total m u f Hr).
  reflexivity.
Qed.

End VectorFacts.

(** ** The loop as a whole *)

Section RunFacts.
Context {lib : FEMLibrary}.
Variable f : point -> R.

Lemma array_cell_res_zero (m : Mesh) (u : Function) :
  (forall K x, div_grad u K x + f x = 0) ->
  (forall E x, jump (grad u) E x = 0) ->
  Forall (fun r => r = 0) (array_cell_res m u f).
Proof.
  intros Hres Hjump. unfold array_cell_res, assemble_vector.
  rewrite Forall_map, Forall_forall. intros T _. unfold assemble_entry.
  rewrite !np_sum_map_zero; [ring | |].
  - intros E _. rewrite (integrate_ext _ _ (fun _ => 0)); [apply integrate_zero|].
    intros x. cbn [residual form_dS]. rewrite Hjump. ring.
  - intros Kc _. rewrite (integrate_ext _ _ (fun _ => 0)); [apply integrate_zero|].
    intros x. cbn [residual form_dx]. rewrite Hres. ring.
Qed.

Lemma np_sum_all_zero (l : list R) : Forall (fun r => r = 0) l -> np_sum l = 0.
Proof. unfold np_sum. induction 1 as [| a l Ha Hl IH]; simpl; [reflexivity | lra]. Qed.

(** X7. When the field has no residual inside the cells
    ([div(grad(u_h)) + f = 0]) and no jump of the normal derivative, every
    indicator is 0 and the loop stops after exactly one pass: it still
    refines and solves once, and returns with [iteration = 1]. *)
Theorem no_residual_one_pass (m0 : Mesh) (u0 : Function) (fuel : nat) :
  (forall K x, div_grad u0 K x + f x = 0) ->
  (forall E x, jump (grad u0) E x = 0) ->
  Forall (fun r => r = 0) (array_cell_res m0 u0 f)
  /\ while_loop f (S fuel) (init_state m0 u0) = Some (loop_body f (init_state m0 u0))
  /\ iteration (loop_body f (init_state m0 u0)) = 1%nat.
Proof.
  intros Hres Hjump.
  pose proof (array_cell_res_zero m0 u0 Hres Hjump) as Hz.
  split; [exact Hz|]. split; [| reflexivity].
  cbn [while_loop]. rewrite init_guard.
  assert (Hg : Rltb (5 / 100) (tot_residual (loop_body f (init_state m0 u0))) = false).
  { apply Rltb_false. cbn [loop_body tot_residual init_state msh uh].
    rewrite (np_sum_all_zero _ Hz). lra. }
  destruct fuel; cbn [while_loop]; rewrite Hg; reflexivity.
Qed.

(** X8. For a field whose [div(grad(.))] vanishes on every cell, as for the
    degree-1 space, the stand-alone first pass computes what one pass of the
    loop body computes: the same total residual, the same refined mesh and
    the same new solution, although its form has [-f] where the loop has
    [+f]. *)
Theorem first_pass_is_loop_body (st : LoopState) :
  (forall K x, div_grad (uh st) K x = 0) ->
  first_pass f (msh st) (uh st)
  = (msh (loop_body f st), uh (loop_body f st), tot_residual (loop_body f st)).
Proof.
  intros Hlap. unfold first_pass. cbv zeta.
  rewrite (residual_first_pass_agrees (msh st) (uh st) f Hlap). reflexivity.
Qed.

(** X9. When the loop returns, the residual it reports was computed on the
    mesh before the last refinement: the exit state is the body applied to a
    state [prev] whose indicators sum to the reported residual, its mesh is
    the refinement of the mesh of [prev] and has more cells, and its solution
    is the solve on that refined mesh, whose own residual was not computed. *)
Theorem exit_state_is_one_refinement_ahead (m0 : Mesh) (u0 : Function)
    (fuel : nat) (fin : LoopState) :
  refine_splits lib -> (1 <= num_cells m0)%nat ->
  while_loop f fuel (init_state m0 u0) = Some fin ->
  exists prev,
    fin = loop_body f prev
    /\ tot_residual fin = np_sum (array_cell_res (msh prev) (uh prev) f)
    /\ np_sum (array_cell_res (msh prev) (uh prev) f) <= 5 / 100
    /\ (num_cells (msh prev) < num_cells (msh fin))%nat
    /\ uh fin = solve_poisson_homog_dirichlet (msh fin) f bc_marker.
Proof.
  intros Hrefine Hn H.
  destruct (while_loop_some f _ _ _ H) as (k & _ & Hfin & Hres & _).
  destruct k as [| k].
  - exfalso. subst fin. simpl in Hres. lra.
  - rewrite passes_succ in Hfin. exists (passes f k (init_state m0 u0)).
    split; [exact Hfin|]. subst fin.
    split; [reflexivity|]. split; [exact Hres|]. split; [| reflexivity].
    apply loop_body_grows; [exact Hrefine|].
    apply passes_nonempty; assumption.
Qed.

Lemma passes_cell_count (m0 : Mesh) (u0 : Function) (k : nat) :
  refine_splits lib -> (1 <= num_cells m0)%nat ->
  (num_cells m0 + k <= num_cells (msh (passes f k (init_state m0 u0))))%nat.
Proof.
  intros Hrefine Hn. induction k as [| k IH]; [simpl; lia|].
  rewrite passes_succ.
  pose proof (loop_body_grows f (passes f k (init_state m0 u0)) Hrefine
                (passes_nonempty f m0 u0 k Hrefine Hn)).
  lia.
Qed.

(** X10. Under the contract of refinement the mesh gains at least one cell
    per pass: after [k] passes it has at least [k] more cells than the
    initial mesh, so a run that returns after [k] passes ends on a mesh of
    at least [num_cells + k] cells. *)
Theorem cell_count_lower_bound (m0 : Mesh) (u0 : Function) (k : nat) :
  refine_splits lib -> (1 <= num_cells m0)%nat ->
  (num_cells m0 + k <= num_cells (msh (passes f k (init_state m0 u0))))%nat
  /\ (forall fuel fin, while_loop f fuel (init_state m0 u0) = Some fin ->
        (num_cells m0 + iteration fin <= num_cells (msh fin))%nat).
Proof.
  intros Hrefine Hn. split; [apply passes_cell_count; assumption|].
  intros fuel fin H.
  destruct (while_loop_some f _ _ _ H) as (j & _ & Hfin & _).
  subst fin. rewrite passes_iteration. cbn [iteration init_state].
  rewrite Nat.add_0_r. apply passes_cell_count; assumption.
Qed.

Lemma first_pass_grows (m0 : Mesh) (u0 : Function) :
  refine_splits lib -> (1 <= num_cells m0)%nat ->
  (num_cells m0 < num_cells (fst (fst (first_pass f m0 u0))))%nat.
Proof.
  intros Hrefine Hn. unfold first_pass. cbn [fst].
  destruct (collect_edges_head m0 (assemble_vector m0 (residual_first_pass m0 u0 f)) Hn
              (assemble_vector_length _ _)) as (e & cell & He & Hcell).
  apply (Hrefine _ _ e cell He Hcell).
Qed.

(** X11. A run of the whole notebook that returns has refined the mesh it
    created at least twice, once in the stand-alone pass and at least once in
    the loop: the final mesh has at least two more cells, and the counter is
    at least 1. *)
Theorem run_notebook_refines_twice (fuel : nat) (m0 : Mesh) (fin : LoopState) :
  refine_splits lib -> (1 <= num_cells m0)%nat ->
  run_notebook f fuel m0 = Some fin ->
  (num_cells m0 + 2 <= num_cells (msh fin))%nat /\ (1 <= iteration fin)%nat.
Proof.
  intros Hrefine Hn. unfold run_notebook. cbv zeta.
  pose proof (first_pass_grows m0 (solve_poisson_homog_dirichlet m0 f bc_marker)
                Hrefine Hn) as H1.
  destruct (first_pass f m0 (solve_poisson_homog_dirichlet m0 f bc_marker))
    as [[m1 u1] t1]. cbn [fst] in H1.
  intros H.
  destruct (while_loop_some f _ _ _ H) as (k & _ & Hfin & Hres & _).
  destruct k as [| k].
  - exfalso. subst fin. simpl in Hres. lra.
  - subst fin.
    pose proof (passes_cell_count m1 u1 (S k)) as H2.
    rewrite passes_iteration. cbn [iteration init_state].
    specialize (H2 Hrefine ltac:(lia)). lia.
Qed.

End RunFacts.

(** ** Markers and boundary conditions *)

Lemma Rleb_false (x y : R) : Rleb x y = false <-> y < x.
Proof.
  unfold Rleb. destruct (Rle_dec x y); split; intros; try discriminate; try reflexivity; lra.
Qed.

Lemma isclose_zero (a : R) : isclose a 0 = true <-> Rabs a <= 1 / 100000000.
Proof.
  unfold isclose, atol, rtol. rewrite Rleb_true, Rminus_0_r, Rabs_R0. split; intros; lra.
Qed.

Lemma isclose_one (a : R) :
  isclose a 1 = true <-> Rabs (a - 1) <= 1 / 100000000 + 1 / 100000.
Proof.
  unfold isclose, atol, rtol. rewrite Rleb_true, Rabs_R1. split; intros; lra.
Qed.

Lemma isclose_two (a : R) :
  isclose a 2 = true <-> Rabs (a - 2) <= 1 / 100000000 + 2 / 100000.
Proof.
  unfold isclose, atol, rtol. rewrite Rleb_true, (Rabs_pos_eq 2) by lra.
  split; intros; lra.
Qed.

(** X12. The marker of the Poisson problem accepts a point exactly when one
    of its coordinates is within the tolerance of [np.isclose]: [1e-8] of
    the lines [x = 0] and [y = 0], [1e-8 + 2e-5] of [x = 2] and
    [1e-8 + 1e-5] of [y = 1].  It therefore also accepts points of the open
    rectangle that lie on none of the four edges. *)
Theorem bc_marker_tolerance :
  (forall x : point,
     bc_marker x = true
     <-> Rabs (fst x) <= 1 / 100000000
         \/ Rabs (fst x - 2) <= 1 / 100000000 + 2 / 100000
         \/ Rabs (snd x) <= 1 / 100000000
         \/ Rabs (snd x - 1) <= 1 / 100000000 + 1 / 100000)
  /\ exists x : point, 0 < fst x < 2 /\ 0 < snd x < 1 /\ bc_marker x = true.
Proof.
  assert (Hiff : forall x : point,
     bc_marker x = true
     <-> Rabs (fst x) <= 1 / 100000000
         \/ Rabs (fst x - 2) <= 1 / 100000000 + 2 / 100000
         \/ Rabs (snd x) <= 1 / 100000000
         \/ Rabs (snd x - 1) <= 1 / 100000000 + 1 / 100000).
  { intros x. unfold bc_marker.
    rewrite !orb_true_iff, !isclose_zero, isclose_one, isclose_two. tauto. }
  split; [exact Hiff|].
  exists (1, 1 / 1000000000). cbn [fst snd].
  split; [lra|]. split; [lra|].
  apply Hiff. right. right. left. cbn [snd].
  rewrite Rabs_pos_eq by lra. lra.
Qed.

Section FreeRows.
Context {lib : FEMLibrary}.

(** X13. Where the direct solve returned a solution of its system, the
    returned field satisfies the equations of the Poisson problem itself on
    every unconstrained degree of freedom: row [i] of the matrix assembled
    without boundary conditions, applied to the solution, gives entry [i] of
    the load vector. *)
Theorem solve_satisfies_free_rows (m : Mesh) (f : point -> R) (marker : point -> bool)
    (i : nat) :
  solve_exact m f marker ->
  (i < length (geometry_x m))%nat -> ~ In i (boundary_dofs m marker) ->
  mat_vec (length (geometry_x m)) (assemble_matrix m)
          (x_array (solve_poisson_homog_dirichlet m f marker)) i
  = assemble_rhs m f i.
Proof.
  intros Hex Hi Hfree.
  set (bc := homog_bc m marker).
  set (n := length (geometry_x m)) in *.
  set (u := x_array (solve_poisson_homog_dirichlet m f marker)).
  assert (Hzero : forall j, In j (boundary_dofs m marker) -> (j < n)%nat -> nth j u 0 = 0)
    by (intros j Hj Hjn; apply solve_zero_on_bc; assumption).
  assert (Hrow : mat_vec n (bc_matrix bc (assemble_matrix m)) u i
                 = bc_rhs bc (assemble_matrix m) (assemble_rhs m f) i)
    by exact (proj2 Hex i Hi).
  clearbody u.
  assert (Hbi : is_bc_dof bc i = false).
  { destruct (is_bc_dof bc i) eqn:Hb; [| reflexivity].
    apply is_bc_dof_In in Hb. contradiction. }
  assert (Hrhs : bc_rhs bc (assemble_matrix m) (assemble_rhs m f) i = assemble_rhs m f i).
  { unfold bc_rhs. rewrite Hbi.
    rewrite np_sum_map_zero by (intros; cbn [bc homog_bc bc_value]; ring). ring. }
  rewrite <- Hrhs, <- Hrow.
  unfold mat_vec. apply np_sum_map_ext. intros j Hj. apply in_seq in Hj.
  unfold bc_matrix. rewrite Hbi. cbn [orb].
  destruct (is_bc_dof bc j) eqn:Hbj; [| reflexivity].
  rewrite (Hzero j) by (try (apply (is_bc_dof_In bc); exact Hbj); lia).
  rewrite !Rmult_0_r. reflexivity.
Qed.

End FreeRows.

(** ** The channel-flow notebook *)

Lemma isclose_zero_false (a : R) : 1 / 1000 <= Rabs a -> isclose a 0 = false.
Proof.
  intros H. unfold isclose, atol, rtol. apply Rleb_false.
  rewrite Rminus_0_r, Rabs_R0. lra.
Qed.

Lemma isclose_one_false (a : R) : 1 / 1000 <= Rabs (a - 1) -> isclose a 1 = false.
Proof.
  intros H. unfold isclose, atol, rtol. apply Rleb_false.
  rewrite Rabs_R1. lra.
Qed.

(** X14. The channel markers as the code has them: [noslip_boundary] holds
    on the two walls [y = 0] and [y = 1], at any abscissa, and [inflow] on
    the line [x = 0]; away from the walls the inflow edge is not a no-slip
    point, and a point at least [1e-3] away from the walls and from the
    inflow line, in particular any such point of the outflow edge, satisfies
    neither marker. *)
Theorem channel_markers :
  (forall a, noslip_boundary (a, 0) = true /\ noslip_boundary (a, 1) = true
             /\ inflow (0, a) = true)
  /\ (forall x : point, 1 / 1000 <= snd x <= 999 / 1000 -> noslip_boundary x = false)
  /\ (forall x : point, 1 / 1000 <= fst x -> inflow x = false).
Proof.
  split; [| split].
  - intros a. unfold noslip_boundary, inflow. cbn [fst snd].
    rewrite !isclose_refl. rewrite orb_true_r. auto.
  - intros x Hx. unfold noslip_boundary.
    rewrite isclose_zero_false, isclose_one_false; [reflexivity | |].
    + rewrite Rabs_left1 by lra. lra.
    + rewrite Rabs_pos_eq by lra. lra.
  - intros x Hx. unfold inflow. apply isclose_zero_false.
    rewrite Rabs_pos_eq by lra. lra.
Qed.

Lemma bc_set_dof (b : nat -> R) (bc : FunctionBC) (i : nat) :
  In i (fbc_dofs bc) -> bc_set b bc i = fbc_g bc i.
Proof.
  intros H. unfold bc_set.
  replace (existsb (Nat.eqb i) (fbc_dofs bc)) with true; [reflexivity|].
  symmetry. apply existsb_exists. exists i. split; [exact H | apply Nat.eqb_refl].
Qed.

Lemma bc_set_other (b : nat -> R) (bc : FunctionBC) (i : nat) :
  ~ In i (fbc_dofs bc) -> bc_set b bc i = b i.
Proof.
  intros H. unfold bc_set.
  destruct (existsb (Nat.eqb i) (fbc_dofs bc)) eqn:Hex; [| reflexivity].
  apply existsb_exists in Hex. destruct Hex as [j [Hj Heq]].
  apply Nat.eqb_eq in Heq. subst. contradiction.
Qed.

Lemma set_bcs_untouched (bcs : list FunctionBC) (b : nat -> R) (i : nat) :
  Forall (fun bc => ~ In i (fbc_dofs bc)) bcs -> set_bcs bcs b i = b i.
Proof.
  unfold set_bcs. intros H. revert b.
  induction H as [| bc bcs Hbc Hall IH]; intros b; [reflexivity|].
  cbn [fold_left]. rewrite IH. apply bc_set_other. exact Hbc.
Qed.

(** X15. Setting the conditions in list order leaves unconstrained entries
    of the right-hand side untouched and gives every constrained entry the
    value of the last condition that constrains it: where two conditions
    overlap, as no-slip and inflow do at the inflow corners, the later one
    in [bcs] decides. *)
Theorem set_bcs_last_wins (bcs : list FunctionBC) (b : nat -> R) (i : nat) :
  (Forall (fun bc => ~ In i (fbc_dofs bc)) bcs -> set_bcs bcs b i = b i)
  /\ (forall bcs1 bc bcs2,
        bcs = bcs1 ++ bc :: bcs2 -> In i (fbc_dofs bc) ->
        Forall (fun bc' => ~ In i (fbc_dofs bc')) bcs2 ->
        set_bcs bcs b i = fbc_g bc i).
Proof.
  split; [apply set_bcs_untouched|].
  intros bcs1 bc bcs2 -> Hin Hlater. unfold set_bcs.
  rewrite fold_left_app. cbn [fold_left].
  fold (set_bcs bcs2 (bc_set (fold_left bc_set bcs1 b) bc)).
  rewrite (set_bcs_untouched _ _ _ Hlater). apply bc_set_dof. exact Hin.
Qed.

(** ** The further properties on concrete inputs *)

(** The ranking of three cells of indicators 1, 3 and 2 marks cell 1. *)
Lemma marked_cells_example : marked_cells 3 [1; 3; 2] = [1%nat].
Proof.
  unfold marked_cells.
  replace (num_cells_to_refine 3) with 1%nat by (vm_compute; reflexivity).
  unfold cell_ord_by_res, cell_ord_by_res_gen, sorted, stable_sort, enumerate.
  cbn [length seq combine rev app fold_left insort_right snd].
  assert (H21 : Rltb 2 1 = false) by (apply Rltb_false; lra).
  assert (H32 : Rltb 3 2 = false) by (apply Rltb_false; lra).
  assert (H31 : Rltb 3 1 = false) by (apply Rltb_false; lra).
  assert (H12 : Rltb 1 2 = true) by (apply Rltb_true; lra).
  assert (H23 : Rltb 2 3 = true) by (apply Rltb_true; lra).
  rewrite ?H21, ?H32, ?H31, ?H12, ?H23.
  cbn [insort_right snd]. rewrite ?H21, ?H32, ?H31, ?H12, ?H23.
  cbn [insort_right snd]. rewrite ?H21, ?H32, ?H31, ?H12, ?H23.
  reflexivity.
Qed.

Lemma rect_mesh_sides_in_range : sides_in_range rect_mesh.
Proof. constructor; [unfold num_cells; simpl; lia | constructor]. Qed.

Lemma rest_library_no_jump (u : Function) (E : InteriorFacet) (x : point) :
  jump (grad (FEMLibrary := rest_library) u) E x = 0.
Proof. unfold jump, dot. cbn [grad rest_library fst snd]. ring. Qed.

Lemma rest_library_no_residual (u : Function) (K : nat) (x : point) :
  div_grad (FEMLibrary := rest_library) u K x + (fun _ : point => 0) x = 0.
Proof. cbn [div_grad rest_library]. ring. Qed.

(** A residual within the threshold at the first pass ends the loop there. *)
Lemma while_loop_first_exit {lib : FEMLibrary} (f : point -> R) (m : Mesh) (u : Function)
    (fuel : nat) :
  np_sum (array_cell_res m u f) <= 5 / 100 ->
  while_loop f (S fuel) (init_state m u) = Some (loop_body f (init_state m u)).
Proof.
  intros H. cbn [while_loop]. rewrite init_guard.
  assert (Hg : Rltb (5 / 100) (tot_residual (loop_body f (init_state m u))) = false)
    by (apply Rltb_false; exact H).
  destruct fuel; cbn [while_loop]; rewrite Hg; reflexivity.
Qed.

Lemma rest_library_first_exit (m : Mesh) (u : Function) (fuel : nat) :
  while_loop (lib := rest_library) (fun _ => 0) (S fuel) (init_state m u)
  = Some (loop_body (lib := rest_library) (fun _ => 0) (init_state m u)).
Proof.
  apply while_loop_first_exit.
  rewrite (np_sum_all_zero _ (array_cell_res_zero (lib := rest_library) (fun _ => 0) m u
                                (rest_library_no_residual u) (rest_library_no_jump u))).
  lra.
Qed.

Lemma marked_cells_largest_witness : nth 0 [1; 3; 2] 0 <= nth 1 [1; 3; 2] 0.
Proof.
  apply (marked_cells_largest 3 [1; 3; 2] 1 0).
  - rewrite marked_cells_example. left. reflexivity.
  - simpl. lia.
  - rewrite marked_cells_example. intros [H | []]. discriminate.
Defined.

Lemma collect_edges_of_marked_witness :
  length (collect_edges rect_mesh (marked_cells (num_cells rect_mesh) [0; 0])) = 3%nat.
Proof.
  exact (proj1 (collect_edges_of_marked rect_mesh [0; 0] eq_refl eq_refl)).
Defined.

Lemma fl_mul_005_multiple_of_20_witness :
  Binary64.fl_mul_005 (20 * 7) = (7 * 2 ^ 56)%Z.
Proof.
  apply (fl_mul_005_multiple_of_20 7). split; [discriminate | reflexivity].
Defined.

Lemma indicator_between_zero_and_total_witness :
  Forall (fun r => 0 <= r <= np_sum (array_cell_res (lib := rest_library) rect_mesh
                                       (zero_function rect_mesh) f_source))
         (array_cell_res (lib := rest_library) rect_mesh (zero_function rect_mesh) f_source).
Proof.
  exact (indicator_between_zero_and_total (lib := rest_library) rect_mesh
           (zero_function rect_mesh) f_source rect_mesh_nonneg).
Defined.

Lemma tot_residual_decomposition_witness :
  np_sum (array_cell_res (lib := rest_library) rect_mesh (zero_function rect_mesh) f_source)
  = 2 * f_source (4 / 3, 1 / 3) ^ 2 + 2 * f_source (2 / 3, 2 / 3) ^ 2.
Proof.
  rewrite (tot_residual_decomposition (lib := rest_library) rect_mesh
             (zero_function rect_mesh) f_source rect_mesh_sides_in_range).
  unfold enumerate, area, jump, dot.
  cbn [rect_mesh cells interior_facets length seq combine map np_sum fold_right
       integrate cell_dx facet_dS fst snd rest_library grad div_grad].
  ring.
Defined.

Lemma no_residual_one_pass_witness :
  while_loop (lib := rest_library) (fun _ => 0) 1
    (init_state rect_mesh (zero_function rect_mesh))
  = Some (loop_body (lib := rest_library) (fun _ => 0)
            (init_state rect_mesh (zero_function rect_mesh))).
Proof.
  exact (proj1 (proj2 (no_residual_one_pass (lib := rest_library) (fun _ => 0)
                         rect_mesh (zero_function rect_mesh) O
                         (rest_library_no_residual _) (rest_library_no_jump _)))).
Defined.

Lemma first_pass_is_loop_body_witness :
  first_pass (lib := rest_library) f_source rect_mesh (zero_function rect_mesh)
  = (msh (loop_body (lib := rest_library) f_source
            (init_state rect_mesh (zero_function rect_mesh))),
     uh (loop_body (lib := rest_library) f_source
           (init_state rect_mesh (zero_function rect_mesh))),
     tot_residual (loop_body (lib := rest_library) f_source
                     (init_state rect_mesh (zero_function rect_mesh)))).
Proof.
  exact (first_pass_is_loop_body (lib := rest_library) f_source
           (init_state rect_mesh (zero_function rect_mesh)) (fun _ _ => eq_refl)).
Defined.

Lemma exit_state_is_one_refinement_ahead_witness :
  exists prev,
    loop_body (lib := rest_library) (fun _ => 0)
      (init_state rect_mesh (zero_function rect_mesh))
    = loop_body (lib := rest_library) (fun _ => 0) prev
    /\ (num_cells (msh prev)
        < num_cells (msh (loop_body (lib := rest_library) (fun _ => 0%R)
                            (init_state rect_mesh (zero_function rect_mesh)))))%nat.
Proof.
  destruct (exit_state_is_one_refinement_ahead (lib := rest_library) (fun _ => 0)
              rect_mesh (zero_function rect_mesh) 1 _
              bisect_marked_splits (le_S 1 1 (le_n 1))
              (rest_library_first_exit _ _ O))
    as (prev & Hfin & _ & _ & Hcells & _).
  exists prev. split; assumption.
Defined.

Lemma cell_count_lower_bound_witness :
  (num_cells rect_mesh + 3
   <= num_cells (msh (passes (lib := rest_library) f_source 3
                        (init_state rect_mesh (zero_function rect_mesh)))))%nat.
Proof.
  exact (proj1 (cell_count_lower_bound (lib := rest_library) f_source rect_mesh
                  (zero_function rect_mesh) 3 bisect_marked_splits (le_S 1 1 (le_n 1)))).
Defined.

Lemma rest_library_run (m0 : Mesh) :
  exists fin, run_notebook (lib := rest_library) (fun _ => 0) 1 m0 = Some fin.
Proof.
  unfold run_notebook. cbv zeta.
  destruct (first_pass (lib := rest_library) (fun _ => 0) m0 _) as [[m1 u1] t1].
  eexists. apply rest_library_first_exit.
Qed.

Lemma run_notebook_refines_twice_witness :
  exists fin,
    run_notebook (lib := rest_library) (fun _ => 0) 1 rect_mesh = Some fin
    /\ (num_cells rect_mesh + 2 <= num_cells (msh fin))%nat.
Proof.
  destruct (rest_library_run rect_mesh) as [fin Hfin].
  exists fin. split; [exact Hfin|].
  exact (proj1 (run_notebook_refines_twice (lib := rest_library) (fun _ => 0) 1 rect_mesh
                  fin bisect_marked_splits (le_S 1 1 (le_n 1)) Hfin)).
Defined.

Lemma solve_satisfies_free_rows_witness :
  mat_vec (length (geometry_x fan_mesh)) (assemble_matrix (FEMLibrary := fan_library) fan_mesh)
          (x_array (solve_poisson_homog_dirichlet (lib := fan_library)
                      fan_mesh f_source bc_marker)) 4
  = assemble_rhs (FEMLibrary := fan_library) fan_mesh f_source 4.
Proof.
  apply (solve_satisfies_free_rows (lib := fan_library) fan_mesh f_source bc_marker 4).
  - apply fan_library_solves.
  - simpl. lia.
  - exact fan_mesh_centre_is_free.
Defined.

(** ** The log of a run *)

Section TraceFacts.
Context {lib : FEMLibrary}.
Variable f : point -> R.

Lemma printed_app (l1 l2 : list Event) : printed (l1 ++ l2) = printed l1 ++ printed l2.
Proof. apply flat_map_app. Qed.

Lemma written_times_app (l1 l2 : list Event) :
  written_times (l1 ++ l2) = written_times l1 ++ written_times l2.
Proof. apply flat_map_app. Qed.

Lemma viz_count_app (l1 l2 : list Event) :
  viz_count (l1 ++ l2) = (viz_count l1 + viz_count l2)%nat.
Proof. unfold viz_count. rewrite filter_app, length_app. reflexivity. Qed.

Lemma pass_events_printed (st : LoopState) :
  printed (pass_events st) = [(iteration st, tot_residual st)].
Proof. unfold pass_events. destruct (Nat.eqb (iteration st mod 3) 0); reflexivity. Qed.

Lemma pass_events_written (st : LoopState) :
  written_times (pass_events st) = [iteration st].
Proof. unfold pass_events. destruct (Nat.eqb (iteration st mod 3) 0); reflexivity. Qed.

Lemma pass_events_viz (st : LoopState) :
  viz_count (pass_events st) = if Nat.eqb (iteration st mod 3) 0 then 1%nat else 0%nat.
Proof. unfold pass_events. destruct (Nat.eqb (iteration st mod 3) 0); reflexivity. Qed.

Lemma div3_succ (i : nat) :
  (S i / 3 = i / 3 + (if Nat.eqb (S i mod 3) 0 then 1 else 0))%nat.
Proof.
  pose proof (Nat.div_mod_eq i 3) as Hi.
  pose proof (Nat.mod_upper_bound i 3 ltac:(lia)) as Hib.
  pose proof (Nat.div_mod_eq (S i) 3) as Hs.
  pose proof (Nat.mod_upper_bound (S i) 3 ltac:(lia)) as Hsb.
  destruct (Nat.eqb_spec (S i mod 3) 0); lia.
Qed.

Lemma trace_printed (k : nat) (st : LoopState) :
  printed (trace f k st)
  = map (fun j => ((iteration st + j)%nat, tot_residual (passes f j st))) (seq 1 k).
Proof.
  revert st. induction k as [| k IH]; intros st; [reflexivity|].
  cbn [trace]. rewrite printed_app, pass_events_printed, IH.
  cbn [seq map app]. f_equal.
  - cbn [loop_body iteration passes]. f_equal. lia.
  - rewrite <- (seq_shift k 1), map_map. apply map_ext. intros j.
    cbn [loop_body iteration passes]. f_equal. lia.
Qed.

Lemma trace_written (k : nat) (st : LoopState) :
  written_times (trace f k st) = seq (S (iteration st)) k.
Proof.
  revert st. induction k as [| k IH]; intros st; [reflexivity|].
  cbn [trace]. rewrite written_times_app, pass_events_written, IH. reflexivity.
Qed.

Lemma trace_viz (k : nat) (st : LoopState) :
  (iteration st / 3 + viz_count (trace f k st) = (iteration st + k) / 3)%nat.
Proof.
  revert st. induction k as [| k IH]; intros st.
  - cbn [trace]. unfold viz_count. cbn [filter length]. rewrite !Nat.add_0_r. reflexivity.
  - cbn [trace]. rewrite viz_count_app, pass_events_viz.
    specialize (IH (loop_body f st)). cbn [loop_body iteration] in IH |- *.
    replace (iteration st + S k)%nat with (S (iteration st) + k)%nat by lia.
    rewrite <- IH, (div3_succ (iteration st)). lia.
Qed.

(** X16. The log of the first [k] passes has one console line per pass,
    numbered 1 to [k] in order, the line of pass [j] carrying the total
    residual computed in that pass; one snapshot per pass, written at times
    1 to [k]; and one plot after every third pass, [k / 3] in all. *)
Theorem trace_one_line_per_pass (m0 : Mesh) (u0 : Function) (k : nat) :
  printed (trace f k (init_state m0 u0))
  = map (fun j => (j, tot_residual (passes f j (init_state m0 u0)))) (seq 1 k)
  /\ written_times (trace f k (init_state m0 u0)) = seq 1 k
  /\ viz_count (trace f k (init_state m0 u0)) = (k / 3)%nat.
Proof.
  split; [| split].
  - rewrite trace_printed. reflexivity.
  - rewrite trace_written. reflexivity.
  - pose proof (trace_viz k (init_state m0 u0)) as H.
    cbn [init_state iteration] in H. simpl in H. exact H.
Qed.

End TraceFacts.
